(** * dineplan: a small REST framework and its demo user service

    A shallow embedding of [restFramework.go] (router, request and response
    wrappers, admission gate) and of the demo program built on it (the user
    repository and its three endpoints), with the properties the
    specification states about them.

    Conventions.
    - Go strings are byte sequences: they are [string] here (a list of
      8-bit [ascii]).
    - Go [int] is taken as 64 bits wide; lengths are [nat], other integers
      are [Z].
    - A Go [map[string]string] is a [gmap string string].
    - The [http.ResponseWriter] the code writes to is an interface: it is
      modelled by the sequence of calls the code makes on it. *)

From Stdlib Require Import ZArith Ascii String List Lia.
From Stdlib Require Import Numbers.HexadecimalString.
From stdpp Require Import base option list gmap strings.

Local Open Scope string_scope.
Local Open Scope list_scope.
Local Open Scope nat_scope.
Set Warnings "-register-all".

(** ** The parts of Go's standard library the code calls *)

Module strings.

(** [strings.HasPrefix(s, prefix)]. *)
Definition HasPrefix (s pre : string) : bool := String.prefix pre s.

(** Membership of a byte in a cutset of ASCII bytes. *)
Fixpoint in_cutset (a : ascii) (cutset : string) : bool :=
  match cutset with
  | EmptyString => false
  | String c cs => if Ascii.eqb a c then true else in_cutset a cs
  end.

(** [strings.TrimLeft(s, cutset)] for a cutset of ASCII bytes. *)
Fixpoint TrimLeft (s cutset : string) : string :=
  match s with
  | EmptyString => EmptyString
  | String a s' => if in_cutset a cutset then TrimLeft s' cutset else s
  end.

(** [strings.TrimRight(s, cutset)] for a cutset of ASCII bytes. *)
Fixpoint TrimRight (s cutset : string) : string :=
  match s with
  | EmptyString => EmptyString
  | String a s' =>
      match TrimRight s' cutset with
      | EmptyString => if in_cutset a cutset then EmptyString
                       else String a EmptyString
      | t => String a t
      end
  end.

(** [strings.Trim(s, cutset)]: all leading and trailing bytes of the
    cutset removed. *)
Definition Trim (s cutset : string) : string :=
  TrimRight (TrimLeft s cutset) cutset.

(** [strings.Split(s, sep)] for a separator of one byte: the pieces
    between the separators, at least one piece. *)
Fixpoint Split (s : string) (sep : ascii) : list string :=
  match s with
  | EmptyString => [EmptyString]
  | String a s' =>
      if Ascii.eqb a sep then EmptyString :: Split s' sep
      else match Split s' sep with
           | seg :: segs => String a seg :: segs
           | [] => [String a EmptyString]
           end
  end.

End strings.

Module strconv.

Local Open Scope Z_scope.

Definition is_digit (c : ascii) : bool :=
  ((48 <=? nat_of_ascii c) && (nat_of_ascii c <=? 57))%nat.

Definition digit_val (c : ascii) : Z := Z.of_nat (nat_of_ascii c) - 48.

Definition is_sign (c : ascii) : bool :=
  Ascii.eqb c "+" || Ascii.eqb c "-".

(** The two errors of [strconv]: [ErrSyntax] and [ErrRange]. *)
Inductive NumError := ErrSyntax | ErrRange.

Definition maxUint64 : Z := 2 ^ 64 - 1.

(** The digit loop of the fast path of [Atoi]: no overflow can occur
    there, the string is shorter than 19 bytes. *)
Fixpoint fast_loop (s : string) (n : Z) : option Z :=
  match s with
  | EmptyString => Some n
  | String ch s' =>
      if is_digit ch then fast_loop s' (n * 10 + digit_val ch) else None
  end.

(** The digit loop of [ParseUint(s, 10, 64)]: a byte that is no decimal
    digit is a syntax error, an overflow of 64 bits a range error with
    the largest value; the first of the two met from the left decides. *)
Fixpoint uint_loop (s : string) (n : Z) : Z * option NumError :=
  match s with
  | EmptyString => (n, None)
  | String c s' =>
      if negb (is_digit c) then (0, Some ErrSyntax)
      else if maxUint64 / 10 + 1 <=? n then (maxUint64, Some ErrRange)
      else if maxUint64 <? n * 10 + digit_val c
           then (maxUint64, Some ErrRange)
      else uint_loop s' (n * 10 + digit_val c)
  end.

Definition ParseUint (s : string) : Z * option NumError :=
  match s with
  | EmptyString => (0, Some ErrSyntax)
  | _ => uint_loop s 0
  end.

(** [ParseInt(s, 10, 0)] with a 64-bit [int]. *)
Definition ParseInt (s : string) : Z * option NumError :=
  match s with
  | EmptyString => (0, Some ErrSyntax)
  | String c s' =>
      let neg := Ascii.eqb c "-" in
      let digits := if is_sign c then s' else s in
      match ParseUint digits with
      | (_, Some ErrSyntax) => (0, Some ErrSyntax)
      | (un, _) =>
          let cutoff := 2 ^ 63 in
          if negb neg && (cutoff <=? un) then (cutoff - 1, Some ErrRange)
          else if neg && (cutoff <? un) then (- cutoff, Some ErrRange)
          else (if neg then - un else un, None)
      end
  end.

(** [strconv.Atoi]: the value and the error ([None] is [nil]). *)
Definition Atoi (s : string) : Z * option NumError :=
  if ((0 <? String.length s) && (String.length s <? 19))%nat then
    match s with
    | EmptyString => (0, Some ErrSyntax)
    | String c s' =>
        let digits := if is_sign c then s' else s in
        match digits with
        | EmptyString => (0, Some ErrSyntax)
        | _ =>
            match fast_loop digits 0 with
            | None => (0, Some ErrSyntax)
            | Some n => (if Ascii.eqb c "-" then - n else n, None)
            end
        end
    end
  else ParseInt s.

End strconv.

(** The slice expression [s[1:]]; the code evaluates it only on strings
    that start with [":"]. *)
Definition tail1 (s : string) : string :=
  match s with
  | EmptyString => EmptyString
  | String _ s' => s'
  end.

Definition slash : ascii := "/"%char.

(** ** Route matching, lines 65-85 of [handleRequest] *)

(** What the inner loop over [routeParts] leaves behind: [match] still
    true with the parameters bound so far, [match] set to false, or an
    index out of range (a run-time panic in Go). *)
Inductive loop_result :=
| Matched (params : gmap string string)
| Mismatch
| IndexPanic.

(** The loop [for i, part := range routeParts], entered at index [i] with
    the map [params]. *)
Fixpoint match_loop (routeParts pathParts : list string) (i : nat)
    (params : gmap string string) : loop_result :=
  match routeParts with
  | [] => Matched params
  | part :: rest =>
      match pathParts !! i with
      | None => IndexPanic
      | Some seg =>
          if strings.HasPrefix part ":" then
            match_loop rest pathParts (S i) (<[tail1 part := seg]> params)
          else if negb (String.eqb part seg) then Mismatch
          else match_loop rest pathParts (S i) params
      end
  end.

(** [pathParts] of a request path, lines 65-66. *)
Definition path_parts (path : string) : list string :=
  strings.Split (strings.Trim path "/") slash.

(** One iteration of the loop over the routes, for the pattern
    [routePath]: [None] is the [continue] on a different number of
    segments. *)
Definition match_route (routePath : string) (pathParts : list string)
    : option loop_result :=
  let routeParts := strings.Split (strings.Trim routePath "/") slash in
  if negb (length routeParts =? length pathParts)%nat then None
  else Some (match_loop routeParts pathParts 0 ∅).

(** ** Requests, responses and the underlying writer *)

Module http.

(** The fields of [http.Request] the framework reads; header and query
    values are lists, a name may repeat. *)
Record Request := {
  Method : string;
  URL_Path : string;
  Header : gmap string (list string);
  URL_Query : gmap string (list string);
  Body : string
}.

Definition MethodGet := "GET".
Definition MethodPost := "POST".
Definition MethodPut := "PUT".
Definition MethodDelete := "DELETE".

End http.

Module textproto.

Definition is_lower (c : ascii) : bool :=
  (97 <=? nat_of_ascii c) && (nat_of_ascii c <=? 122).

Definition is_upper (c : ascii) : bool :=
  (65 <=? nat_of_ascii c) && (nat_of_ascii c <=? 90).

Definition is_digit (c : ascii) : bool :=
  (48 <=? nat_of_ascii c) && (nat_of_ascii c <=? 57).

(** The bytes of a header field name (a token): letters, digits and some
    punctuation. *)
Definition validHeaderFieldByte (c : ascii) : bool :=
  is_lower c || is_upper c || is_digit c
  || strings.in_cutset c "!#$%&'*+-.^_`|~".

Fixpoint all_valid (s : string) : bool :=
  match s with
  | EmptyString => true
  | String c s' => validHeaderFieldByte c && all_valid s'
  end.

(** Upper case for the first letter and for a letter after a dash, lower
    case for every other letter. *)
Fixpoint canonical_case (upper : bool) (s : string) : string :=
  match s with
  | EmptyString => EmptyString
  | String c s' =>
      let c' := if upper && is_lower c
                then ascii_of_nat (nat_of_ascii c - 32)
                else if negb upper && is_upper c
                then ascii_of_nat (nat_of_ascii c + 32)
                else c in
      String c' (canonical_case (Ascii.eqb c' "-") s')
  end.

(** [textproto.CanonicalMIMEHeaderKey]: the name under which a header is
    stored; a name with a byte that no field name has is left as it is. *)
Definition CanonicalMIMEHeaderKey (s : string) : string :=
  if all_valid s then canonical_case true s else s.

End textproto.

(** A value passed as [interface{}] to the JSON encoder; a struct is given
    by its fields in declaration order under their JSON names, a map by its
    entries. *)
Inductive goval :=
| VInt (n : Z)
| VString (s : string)
| VSlice (items : list goval)
| VStruct (fields : list (string * goval))
| VMap (entries : list (string * goval)).

(** A call the code makes on (or with) the [http.ResponseWriter]. *)
Inductive wcall :=
| HeaderSet (k v : string)      (* w.Header().Set(k, v) *)
| WriteHeader (code : Z)        (* w.WriteHeader(code) *)
| WriteBytes (data : string)    (* w.Write(data), also through fmt.Fprint(f) *)
| JsonEncode (v : goval)        (* json.NewEncoder(w).Encode(v) *)
| HttpNotFound.                 (* http.NotFound(w, r) *)

(** The writer: the calls made so far, oldest first. *)
Abbreviation ResponseWriter := (list wcall).

(** The order in which [for k, v := range m] visits the entries of a map:
    Go leaves it unspecified, each entry is visited once. *)
Class MapOrder := {
  range_headers : gmap string string → list (string * string);
  range_headers_perm : ∀ m, range_headers m ≡ₚ map_to_list m
}.

(** The decoder [json.NewDecoder(body).Decode(&result)] at type [T]:
    [None] when it returns an error. *)
Class JsonDecoder (T : Type) := json_decode : string → option T.

Record Request := {
  httpRequest : http.Request;
  params : gmap string string
}.

Definition Headers (r : Request) : gmap string (list string) :=
  http.Header (httpRequest r).

Definition Query (r : Request) : gmap string (list string) :=
  http.URL_Query (httpRequest r).

(** Reading a Go map at a missing key gives the zero value. *)
Definition PathParam (r : Request) (param : string) : string :=
  default "" (params r !! param).

(** [Body[T]]: [None] is the nil pointer. *)
Definition Body {T : Type} `{JsonDecoder T} (r : Request) : option T :=
  json_decode (http.Body (httpRequest r)).

Record Response := {
  writer : ResponseWriter;
  headerWritten : bool;
  status : Z;
  headers : gmap string string
}.

Definition StatusOK : Z := 200.

Definition NewResponse (w : ResponseWriter) : Response :=
  {| writer := w; headerWritten := false; status := StatusOK; headers := ∅ |}.

Definition Header (r : Response) (header value : string) : Response :=
  if negb (headerWritten r) then
    {| writer := writer r; headerWritten := headerWritten r;
       status := status r; headers := <[header := value]> (headers r) |}
  else r.

Definition Status (r : Response) (HTTPStatus : string) : Response :=
  let statusInt := fst (strconv.Atoi HTTPStatus) in
  {| writer := writer r; headerWritten := headerWritten r;
     status := statusInt; headers := headers r |}.

Definition writeHeaders `{MapOrder} (r : Response) : Response :=
  if negb (headerWritten r) then
    {| writer := writer r
                 ++ map (λ kv, HeaderSet kv.1 kv.2) (range_headers (headers r))
                 ++ [WriteHeader (status r)];
       headerWritten := true;
       status := status r; headers := headers r |}
  else r.

(** Appending calls to the writer of a response. *)
Definition emit (r : Response) (calls : list wcall) : Response :=
  {| writer := writer r ++ calls; headerWritten := headerWritten r;
     status := status r; headers := headers r |}.

Definition CRLF : string :=
  String (ascii_of_nat 13) (String (ascii_of_nat 10) EmptyString).

(** [fmt.Sprintf("%x", n)] for a length [n]. *)
Definition hex (n : nat) : string :=
  NilZero.string_of_uint (Nat.to_hex_uint n).

Definition End `{MapOrder} (r : Response) : Response :=
  let r := writeHeaders r in
  if String.eqb (default "" (headers r !! "Transfer-Encoding")) "chunked"
  then emit r [WriteBytes ("0" ++ CRLF ++ CRLF)%string]
  else r.

(** [Json] returns the encoder's error; the response it leaves is what is
    modelled. *)
Definition Json `{MapOrder} (r : Response) (resp : goval) : Response :=
  let r := Header r "Content-Type" "application/json" in
  let r := writeHeaders r in
  emit r [JsonEncode resp].

Definition Write `{MapOrder} (r : Response) (data : string) : Response :=
  let r := if negb (headerWritten r)
           then writeHeaders (Header r "Transfer-Encoding" "chunked")
           else r in
  if (String.length data =? 0)%nat then r
  else emit r [WriteBytes (hex (String.length data) ++ CRLF)%string;
               WriteBytes data;
               WriteBytes CRLF].

(** ** The server: route table and dispatch *)

(** A buffered channel of [struct{}]: only its capacity and the number of
    buffered elements matter. *)
Record Chan := { chan_cap : nat; chan_len : nat }.

Definition make_chan (capacity : nat) : Chan :=
  {| chan_cap := capacity; chan_len := 0 |}.

Section Server.

(** The state the handler closures capture and change. *)
Context {St : Type}.

Definition RouteHandler : Type := Request → Response → St → St * Response.

Record Route := { path : string; handler : RouteHandler }.

Record Server := {
  routes : gmap string (list Route);
  workerPool : Chan
}.

(** [NumCPU] is the result of [runtime.NumCPU()]. *)
Definition NewServer (NumCPU : nat) : Server :=
  let maxWorkers := NumCPU * 100 in
  {| routes := ∅; workerPool := make_chan maxWorkers |}.

Definition addRoute (s : Server) (method path : string)
    (handler : RouteHandler) : Server :=
  {| routes := <[method := (default [] (routes s !! method)
                            ++ [{| path := path; handler := handler |}])%list]>
               (routes s);
     workerPool := workerPool s |}.

Definition Get (s : Server) (route : string) (handler : RouteHandler) :=
  addRoute s http.MethodGet route handler.

Definition Post (s : Server) (route : string) (handler : RouteHandler) :=
  addRoute s http.MethodPost route handler.

Definition Put (s : Server) (route : string) (handler : RouteHandler) :=
  addRoute s http.MethodPut route handler.

Definition Delete (s : Server) (route : string) (handler : RouteHandler) :=
  addRoute s http.MethodDelete route handler.

Definition Any (s : Server) (route : string) (handler : RouteHandler) :=
  Delete (Put (Post (Get s route handler) route handler) route handler)
         route handler.

(** Where the loop over the routes of the method ends. *)
Inductive dispatch :=
| Found (route : Route) (params : gmap string string)
| NoRoute
| Panicked.

(** The loop [for _, route := range routes], lines 68-95, up to the
    call of the handler. *)
Fixpoint route_loop (rs : list Route) (pathParts : list string)
    : dispatch :=
  match rs with
  | [] => NoRoute
  | route :: rest =>
      match match_route (path route) pathParts with
      | None => route_loop rest pathParts
      | Some (Matched params) => Found route params
      | Some Mismatch => route_loop rest pathParts
      | Some IndexPanic => Panicked
      end
  end.

(** [handleRequest] run on its own: the writer and the captured state it
    leaves, [None] for a panic. The slot of [workerPool] taken on entry
    is given back by the deferred receive; the interleaving of several
    requests on the pool is modelled below. *)
Definition handleRequest (s : Server) (w : ResponseWriter)
    (r : http.Request) (st : St) : option (St * ResponseWriter) :=
  match routes s !! http.Method r with
  | None => Some (st, (w ++ [HttpNotFound])%list)
  | Some rs =>
      match route_loop rs (path_parts (http.URL_Path r)) with
      | Found route params =>
          let req := {| httpRequest := r; params := params |} in
          let res := NewResponse w in
          let '(st', res') := handler route req res st in
          Some (st', writer res')
      | NoRoute => Some (st, (w ++ [HttpNotFound])%list)
      | Panicked => None
      end
  end.

End Server.

Arguments RouteHandler : clear implicits.
Arguments Route : clear implicits.
Arguments Server : clear implicits.
Arguments dispatch : clear implicits.

(** ** The admission gate: requests interleaved on [workerPool] *)

(** How the body of [handleRequest] is left. *)
Inductive exit_path :=
| ExitNoMethod      (* line 62: no route list for the method *)
| ExitHandled       (* line 93: the handler returned *)
| ExitNoMatch       (* line 97: no route matched *)
| ExitPanic.        (* the handler panicked; the deferred call still runs *)

(** Where one invocation of [handleRequest] stands. *)
Inductive phase :=
| AtSend                      (* before the send of line 51 *)
| InBody                      (* lines 56-97, the handler included *)
| AtDeferred (e : exit_path)  (* body left, deferred receive not yet run *)
| Returned.

Record gate_state := {
  pool : Chan;
  goroutines : list phase
}.

Inductive gate_event :=
| Arrive                          (* the listener starts an invocation *)
| Send (i : nat)                  (* invocation [i] passes line 51 *)
| Leave (i : nat) (e : exit_path) (* invocation [i] leaves the body *)
| Recv (i : nat).                 (* invocation [i] runs its deferred receive *)

Definition chan_send (c : Chan) : option Chan :=
  if (chan_len c <? chan_cap c)%nat
  then Some {| chan_cap := chan_cap c; chan_len := S (chan_len c) |}
  else None.

Definition chan_recv (c : Chan) : option Chan :=
  match chan_len c with
  | O => None
  | S n => Some {| chan_cap := chan_cap c; chan_len := n |}
  end.

(** One step of the interleaving; [None] when the event cannot happen in
    this state (a send on a full channel blocks). *)
Definition gate_step (g : gate_state) (ev : gate_event) : option gate_state :=
  match ev with
  | Arrive =>
      Some {| pool := pool g; goroutines := (goroutines g ++ [AtSend])%list |}
  | Send i =>
      match goroutines g !! i with
      | Some AtSend =>
          c ← chan_send (pool g);
          Some {| pool := c; goroutines := <[i := InBody]> (goroutines g) |}
      | _ => None
      end
  | Leave i e =>
      match goroutines g !! i with
      | Some InBody =>
          Some {| pool := pool g;
                  goroutines := <[i := AtDeferred e]> (goroutines g) |}
      | _ => None
      end
  | Recv i =>
      match goroutines g !! i with
      | Some (AtDeferred _) =>
          c ← chan_recv (pool g);
          Some {| pool := c; goroutines := <[i := Returned]> (goroutines g) |}
      | _ => None
      end
  end.

Fixpoint gate_run (g : gate_state) (evs : list gate_event)
    : option gate_state :=
  match evs with
  | [] => Some g
  | ev :: evs' => g' ← gate_step g ev; gate_run g' evs'
  end.

(** The gate of a server just built, no request yet. *)
Definition gate_init (NumCPU : nat) : gate_state :=
  {| pool := workerPool (NewServer (St := unit) NumCPU); goroutines := [] |}.

Definition in_body (p : phase) : bool :=
  match p with InBody => true | _ => false end.

Definition holds_slot (p : phase) : bool :=
  match p with InBody | AtDeferred _ => true | _ => false end.

Definition count_phase (f : phase → bool) (l : list phase) : nat :=
  length (List.filter f l).

(** The number of invocations inside the body of [handleRequest]. *)
Definition executing (g : gate_state) : nat :=
  count_phase in_body (goroutines g).

(** The number of invocations between their send and their deferred
    receive. *)
Definition holding (g : gate_state) : nat :=
  count_phase holds_slot (goroutines g).

(** ** The demo program *)

Record User := {
  ID : Z;
  Name : string;
  Phone : string;
  Age : Z
}.

(** A [User] as the encoder sees it, under its JSON field names. *)
Definition User_val (u : User) : goval :=
  VStruct [("id", VInt (ID u)); ("name", VString (Name u));
           ("phone", VString (Phone u)); ("age", VInt (Age u))].

Record UserRepository := { users : list User }.

Definition NewUserRepository : UserRepository :=
  {| users := [ {| ID := 1; Name := "Pavan Illa"; Phone := "9381122977"; Age := 24 |};
                {| ID := 2; Name := "John Doe"; Phone := "9381122988"; Age := 28 |};
                {| ID := 3; Name := "Peter Griffin"; Phone := "8978987899"; Age := 44 |} ] |}.

Definition GetAll (ur : UserRepository) : list User := users ur.

Fixpoint GetByID_loop (us : list User) (id : Z) : User * bool :=
  match us with
  | [] => ({| ID := 0; Name := ""; Phone := ""; Age := 0 |}, false)
  | user :: rest => if (ID user =? id)%Z then (user, true)
                    else GetByID_loop rest id
  end.

Definition GetByID (ur : UserRepository) (id : Z) : User * bool :=
  GetByID_loop (users ur) id.

(** [Add]: the repository after the call and the user returned. *)
Definition Add (ur : UserRepository) (user : User) : UserRepository * User :=
  let user := {| ID := Z.of_nat (length (users ur)) + 1; Name := Name user;
                 Phone := Phone user; Age := Age user |} in
  ({| users := (users ur ++ [user])%list |}, user).

Definition error_body (msg : string) : goval :=
  VMap [("error", VString msg)].

Section Main.

Context `{MapOrder} `{JsonDecoder User}.

(** The handler of [GET /get-all-users], lines 67-70. *)
Definition get_all_users : RouteHandler UserRepository :=
  λ req res userRepo,
    let users := GetAll userRepo in
    (userRepo, Json (Status res "200") (VSlice (map User_val users))).

(** The handler of [GET /get-user/:userId], lines 72-85. *)
Definition get_user : RouteHandler UserRepository :=
  λ req res userRepo,
    let userIdStr := PathParam req "userId" in
    match strconv.Atoi userIdStr with
    | (_, Some _) =>
        (userRepo, Json (Status res "400") (error_body "Invalid UserId"))
    | (userId, None) =>
        match GetByID userRepo userId with
        | (_, false) =>
            (userRepo, Json (Status res "404") (error_body "User not found"))
        | (user, true) =>
            (userRepo, Json (Status res "200") (User_val user))
        end
    end.

(** The handler of [POST /add-student], lines 87-115. *)
Definition add_student : RouteHandler UserRepository :=
  λ req res userRepo,
    match Body req with
    | None =>
        (userRepo, Json (Status res "400") (error_body "Invalid request body"))
    | Some user =>
        if String.eqb (Name user) "" then
          (userRepo, Json (Status res "400") (error_body "Name is required"))
        else if String.eqb (Phone user) "" then
          (userRepo, Json (Status res "400") (error_body "Phone is required"))
        else if (Age user <=? 0)%Z then
          (userRepo, Json (Status res "400") (error_body "Invalid age"))
        else
          let '(userRepo', newUser) := Add userRepo user in
          (userRepo',
           Json (Status res "201")
                (VMap [("message", VString "Student added successfully");
                       ("user", User_val newUser)]))
    end.

(** The server [main] builds, lines 62-115. *)
Definition app (NumCPU : nat) : Server UserRepository :=
  let app := NewServer NumCPU in
  let app := Get app "/get-all-users" get_all_users in
  let app := Get app "/get-user/:userId" get_user in
  Post app "/add-student" add_student.

End Main.

(** ** Vocabulary of the properties *)

Definition route_parts (routePath : string) : list string :=
  strings.Split (strings.Trim routePath "/") slash.

(** A pattern segment is a named-parameter marker when it starts with a
    colon; any other segment is a literal. *)
Definition is_marker (part : string) : bool := strings.HasPrefix part ":".

(** Every literal segment of [rp] equals the segment of [pp] at the same
    position, positions of [pp] counted from [i]. *)
Definition literals_agree_from (i : nat) (rp pp : list string) : Prop :=
  ∀ j part seg, rp !! j = Some part → pp !! (i + j) = Some seg →
                is_marker part = false → part = seg.

Definition literals_agree (rp pp : list string) : Prop :=
  literals_agree_from 0 rp pp.

(** The marker segment that names the parameter [name]. *)
Definition marker (name : string) : string := String ":" name.

(** A registration: method, pattern and handler, as passed to [addRoute]. *)
Definition registration (St : Type) : Type :=
  (string * string * RouteHandler St)%type.

Definition register {St} (s : Server St) (reg : registration St) : Server St :=
  addRoute s reg.1.1 reg.1.2 reg.2.

(** The server after a sequence of registrations, oldest first. *)
Definition register_all {St} (s : Server St) (regs : list (registration St))
    : Server St :=
  foldl register s regs.

(** The routes registered under [method], in the order of registration. *)
Definition method_routes {St} (method : string) (regs : list (registration St))
    : list (Route St) :=
  omap (λ reg : registration St,
          if decide (reg.1.1 = method)
          then Some {| path := reg.1.2; handler := reg.2 |} else None) regs.

(** The call [route.handler(req, res)] of line 92 and what [handleRequest]
    keeps of it. *)
Definition invoke {St} (route : Route St) (ps : gmap string string)
    (w : ResponseWriter) (r : http.Request) (st : St)
    : St * ResponseWriter :=
  let '(st', res') := handler route {| httpRequest := r; params := ps |}
                              (NewResponse w) st in
  (st', writer res').

(** What every reachable state of the gate satisfies, for capacity [C]. *)
Definition gate_inv (C : nat) (g : gate_state) : Prop :=
  chan_cap (pool g) = C
  ∧ chan_len (pool g) = holding g
  ∧ chan_len (pool g) ≤ C.

(** One order [range] may follow. *)
Definition map_to_list_order : MapOrder :=
  {| range_headers := map_to_list; range_headers_perm := λ m, reflexivity _ |}.

(** The public methods of [Response], as calls a handler may make. *)
Inductive resp_op :=
| OpHeader (header value : string)
| OpStatus (HTTPStatus : string)
| OpJson (resp : goval)
| OpWrite (data : string)
| OpEnd.

Definition apply_op `{MapOrder} (r : Response) (op : resp_op) : Response :=
  match op with
  | OpHeader header value => Header r header value
  | OpStatus HTTPStatus => Status r HTTPStatus
  | OpJson resp => Json r resp
  | OpWrite data => Write r data
  | OpEnd => End r
  end.

Definition run_ops `{MapOrder} (r : Response) (ops : list resp_op) : Response :=
  foldl apply_op r ops.

(** The calls that write: [Json], [Write] and [End]. *)
Definition is_trigger (op : resp_op) : bool :=
  match op with
  | OpJson _ | OpWrite _ | OpEnd => true
  | OpHeader _ _ | OpStatus _ => false
  end.

(** The header a writing call records itself before it flushes. *)
Definition own_header (op : resp_op) : option string :=
  match op with
  | OpJson _ => Some "Content-Type"
  | OpWrite _ => Some "Transfer-Encoding"
  | _ => None
  end.

Definition is_flush (c : wcall) : bool :=
  match c with WriteHeader _ => true | _ => false end.

(** The number of header flushes among some calls on the writer. *)
Definition flushes (calls : list wcall) : nat :=
  length (List.filter is_flush calls).

Definition is_body_write (c : wcall) : bool :=
  match c with WriteBytes _ | JsonEncode _ => true | _ => false end.

(** The values set for the header [name] among some calls on the writer. *)
Definition values_set (name : string) (calls : list wcall) : list string :=
  omap (λ c, match c with
             | HeaderSet k v => if decide (k = name) then Some v else None
             | _ => None
             end) calls.

(** What [writeHeaders] appends to the writer: nothing once the flag is
    set, else the recorded headers and one [WriteHeader]. *)
Definition flush_calls `{MapOrder} (r : Response) : list wcall :=
  if headerWritten r then []
  else map (λ kv, HeaderSet kv.1 kv.2) (range_headers (headers r))
       ++ [WriteHeader (status r)].

(** Two responses that differ at most in the private [status] field. *)
Definition same_but_status (r1 r2 : Response) : Prop :=
  writer r1 = writer r2 ∧ headerWritten r1 = headerWritten r2
  ∧ headers r1 = headers r2.

Fixpoint all_digits (s : string) : bool :=
  match s with
  | EmptyString => true
  | String c s' => strconv.is_digit c && all_digits s'
  end.

(** A decimal integer as written: an optional sign, then one or more
    decimal digits. *)
Definition is_integer_literal (s : string) : bool :=
  match s with
  | EmptyString => false
  | String c s' =>
      let digits := if strconv.is_sign c then s' else s in
      match digits with
      | EmptyString => false
      | _ => all_digits digits
      end
  end.

(** The repository after [Add] was called with each of [added] in turn. *)
Definition add_all (ur : UserRepository) (added : list User) : UserRepository :=
  foldl (λ ur user, (Add ur user).1) ur added.

(** The largest id among some users, [0] when there is none. *)
Definition max_id (us : list User) : Z :=
  foldr (λ u m, Z.max (ID u) m) 0%Z us.

Definition quoted (s : string) : string :=
  (String (ascii_of_nat 34) s ++ String (ascii_of_nat 34) EmptyString)%string.

(** The request body of the scenario, an object with the members name,
    phone and age. *)
Definition teja_body : string :=
  ("{" ++ quoted "name" ++ ":" ++ quoted "Teja" ++ ","
       ++ quoted "phone" ++ ":" ++ quoted "123" ++ ","
       ++ quoted "age" ++ ":30}")%string.

(** What the decoder makes of that body: the field [ID] is absent and
    keeps its zero value. *)
Definition teja : User :=
  {| ID := 0; Name := "Teja"; Phone := "123"; Age := 30 |}.

Definition json_headers : list wcall :=
  [HeaderSet "Content-Type" "application/json"].

(** A decoder that knows the one body of the scenario. *)
Definition scenario_decoder : JsonDecoder User :=
  λ body, if String.eqb body teja_body then Some teja else None.

Definition request (method path body : string) : http.Request :=
  {| http.Method := method; http.URL_Path := path; http.Header := ∅;
     http.URL_Query := ∅; http.Body := body |}.

(** The ids of [us] count up from [k + 1]. *)
Definition ids_from (k : nat) (us : list User) : Prop :=
  ∀ i u, us !! i = Some u → ID u = (Z.of_nat (k + i) + 1)%Z.

(** The route lists [main] registers, by method. *)
Definition get_routes `{MapOrder} : list (Route UserRepository) :=
  [ {| path := "/get-all-users"; handler := get_all_users |};
    {| path := "/get-user/:userId"; handler := get_user |} ].

Definition post_routes `{MapOrder} `{JsonDecoder User}
    : list (Route UserRepository) :=
  [ {| path := "/add-student"; handler := add_student |} ].

(** The header of the writer, [w.Header()], after some calls on the writer:
    [Set] stores the one value under the canonical form of the name and
    drops what was stored there. *)
Definition writer_header (h : gmap string (list string)) (calls : list wcall)
    : gmap string (list string) :=
  foldl (λ h c, match c with
                | HeaderSet k v => <[textproto.CanonicalMIMEHeaderKey k := [v]]> h
                | _ => h
                end) h calls.

Definition is_header_set (c : wcall) : bool :=
  match c with HeaderSet _ _ => true | _ => false end.

(** The header a writing call records itself before it flushes, with its
    value. *)
Definition own_entry (op : resp_op) : option (string * string) :=
  match op with
  | OpJson _ => Some ("Content-Type", "application/json")
  | OpWrite _ => Some ("Transfer-Encoding", "chunked")
  | _ => None
  end.

(** The headers recorded when the writing call [op] flushes a response
    whose headers are not yet flushed. *)
Definition flushed_headers (r : Response) (op : resp_op) : gmap string string :=
  match own_entry op with
  | Some (k, v) => <[k := v]> (headers r)
  | None => headers r
  end.

(** The value recorded for [name] at that flush, [v2] having been recorded
    before the call: the call's own value if it records [name] itself. *)
Definition value_at_flush (name v2 : string) (op : resp_op) : string :=
  match own_entry op with
  | Some (k, v) => if decide (k = name) then v else v2
  | None => v2
  end.

(** ** Vocabulary of the further properties *)

(** [strings.Join(segs, sep)]. *)
Fixpoint Join (segs : list string) (sep : string) : string :=
  match segs with
  | [] => EmptyString
  | [seg] => seg
  | seg :: rest => (seg ++ sep ++ Join rest sep)%string
  end.

(** The byte [c] occurs in [s]. *)
Fixpoint has_byte (c : ascii) (s : string) : bool :=
  match s with
  | EmptyString => false
  | String a s' => Ascii.eqb a c || has_byte c s'
  end.

Definition starts_with (c : ascii) (s : string) : bool :=
  match s with
  | EmptyString => false
  | String a _ => Ascii.eqb a c
  end.

Fixpoint ends_with (c : ascii) (s : string) : bool :=
  match s with
  | EmptyString => false
  | String a EmptyString => Ascii.eqb a c
  | String _ s' => ends_with c s'
  end.

(** The four methods [Any] registers under. *)
Definition any_methods : list string :=
  [http.MethodGet; http.MethodPost; http.MethodPut; http.MethodDelete].

(** The three writes [Write] makes for one chunk; nothing for no bytes. *)
Definition frame (data : string) : list wcall :=
  if String.length data =? 0 then []
  else [WriteBytes (hex (String.length data) ++ CRLF)%string;
        WriteBytes data; WriteBytes CRLF].

Definition frames (datas : list string) : list wcall :=
  concat (map frame datas).

(** The terminating chunk [End] writes. *)
Definition terminator : wcall := WriteBytes ("0" ++ CRLF ++ CRLF)%string.

(** The response records [Transfer-Encoding: chunked]. *)
Definition chunked (r : Response) : bool :=
  String.eqb (default "" (headers r !! "Transfer-Encoding")) "chunked".

(** The headers and the status a sequence of calls records on top of [m]
    and [code], later calls first in line. *)
Definition header_map (m : gmap string string) (ops : list resp_op)
    : gmap string string :=
  foldl (λ m op, match op with
                 | OpHeader k v => <[k := v]> m
                 | _ => m
                 end) m ops.

Definition status_code (code : Z) (ops : list resp_op) : Z :=
  foldl (λ c op, match op with
                 | OpStatus s => (strconv.Atoi s).1
                 | _ => c
                 end) code ops.

(** The zero value [User{}]. *)
Definition zero_user : User :=
  {| ID := 0; Name := ""; Phone := ""; Age := 0 |}.

Definition with_ID (u : User) (id : Z) : User :=
  {| ID := id; Name := Name u; Phone := Phone u; Age := Age u |}.

(** What [res.Status(code).Json(v)] writes on a new response. *)
Definition json_response (code : Z) (v : goval) : list wcall :=
  json_headers ++ [WriteHeader code; JsonEncode v].

(** The repository after the demo server has handled one request, and after
    it has handled some requests one after the other. *)
Definition serve `{MapOrder} `{JsonDecoder User} (NumCPU : nat)
    (repo : UserRepository) (r : http.Request) : UserRepository :=
  match handleRequest (app NumCPU) [] r repo with
  | Some (repo', _) => repo'
  | None => repo
  end.

Definition serve_all `{MapOrder} `{JsonDecoder User} (NumCPU : nat)
    (repo : UserRepository) (reqs : list http.Request) : UserRepository :=
  foldl (serve NumCPU) repo reqs.

Definition is_post (r : http.Request) : bool :=
  String.eqb (http.Method r) http.MethodPost.

(** The first check of [add_student] that fails, with its message. *)
Definition add_student_error (decoded : option User) : option string :=
  match decoded with
  | None => Some "Invalid request body"
  | Some user =>
      if String.eqb (Name user) "" then Some "Name is required"
      else if String.eqb (Phone user) "" then Some "Phone is required"
      else if (Age user <=? 0)%Z then Some "Invalid age"
      else None
  end.

(** * Properties *)

(** ** The model on concrete inputs *)

Example path_parts_user : path_parts "/get-user/abc" = ["get-user"; "abc"].
Proof. reflexivity. Qed.

Example path_parts_root : path_parts "/" = [""].
Proof. reflexivity. Qed.

Example path_parts_inner : path_parts "//a//b/" = ["a"; ""; "b"].
Proof. reflexivity. Qed.

Example match_route_user :
  match_route "/get-user/:userId" (path_parts "/get-user/abc")
  = Some (Matched {[ "userId" := "abc" ]}).
Proof. reflexivity. Qed.

Example Atoi_400 : strconv.Atoi "400" = (400%Z, None).
Proof. reflexivity. Qed.

Example Atoi_abc : strconv.Atoi "abc" = (0%Z, Some strconv.ErrSyntax).
Proof. reflexivity. Qed.

Example Atoi_neg : strconv.Atoi "-12" = ((-12)%Z, None).
Proof. reflexivity. Qed.

Example Atoi_max : strconv.Atoi "9223372036854775807" = ((2 ^ 63 - 1)%Z, None).
Proof. reflexivity. Qed.

Example Atoi_over :
  strconv.Atoi "9223372036854775808" = ((2 ^ 63 - 1)%Z, Some strconv.ErrRange).
Proof. reflexivity. Qed.

Example Atoi_min : strconv.Atoi "-9223372036854775808" = ((- 2 ^ 63)%Z, None).
Proof. reflexivity. Qed.

Example Atoi_huge_then_letter :
  strconv.Atoi "99999999999999999999999x" = ((2 ^ 63 - 1)%Z, Some strconv.ErrRange).
Proof. reflexivity. Qed.

Example Atoi_sign_only : strconv.Atoi "+" = (0%Z, Some strconv.ErrSyntax).
Proof. reflexivity. Qed.

Example Split_empty : strings.Split "" slash = [""].
Proof. reflexivity. Qed.

Example Trim_only_slashes : strings.Trim "///" "/" = "".
Proof. reflexivity. Qed.

Example hex_26 : hex 26 = "1a".
Proof. reflexivity. Qed.

Example match_route_count_differs :
  match_route "/get-user/:userId" (path_parts "/get-user") = None.
Proof. reflexivity. Qed.

Example match_route_literal_differs :
  match_route "/get-user/:userId" (path_parts "/get-users/7") = Some Mismatch.
Proof. reflexivity. Qed.

Example Write_chunk :
  writer (@Write map_to_list_order (NewResponse []) "hello world, hello all")
  = [HeaderSet "Transfer-Encoding" "chunked"; WriteHeader 200;
     WriteBytes ("16" ++ CRLF)%string;
     WriteBytes "hello world, hello all"; WriteBytes CRLF].
Proof. reflexivity. Qed.

(** ** Route matching *)

Lemma literals_agree_from_cons i part rest pp :
  literals_agree_from i (part :: rest) pp ↔
  (∀ seg, pp !! i = Some seg → is_marker part = false → part = seg)
  ∧ literals_agree_from (S i) rest pp.
Proof.
  unfold literals_agree_from. split.
  - intros Hall. split.
    + intros seg Hseg Hlit. apply (Hall 0 part seg); auto.
      by rewrite Nat.add_0_r.
    + intros j p seg Hp Hseg Hlit. apply (Hall (S j) p seg); auto.
      by rewrite Nat.add_succ_r.
  - intros [Hhd Htl] [|j] p seg Hp Hseg Hlit; simpl in Hp.
    + injection Hp as <-. rewrite Nat.add_0_r in Hseg. by apply Hhd.
    + rewrite Nat.add_succ_r in Hseg. by apply (Htl j).
Qed.

(** The index [i] stays in range when the remaining parts fit. *)
Lemma match_loop_no_panic (rp : list string) : ∀ (pp : list string) i ps,
  length rp + i ≤ length pp → match_loop rp pp i ps ≠ IndexPanic.
Proof.
  induction rp as [|part rest IH]; intros pp i ps Hlen; simpl in *; [done|].
  destruct (pp !! i) as [seg|] eqn:Hseg.
  - destruct (strings.HasPrefix part ":"); [apply IH; lia|].
    destruct (negb (String.eqb part seg)); [done | apply IH; lia].
  - apply lookup_ge_None in Hseg. lia.
Qed.

(** The loop ends with [match] true exactly when the literals agree. *)
Lemma match_loop_matched_iff (rp : list string) : ∀ (pp : list string) i ps,
  length rp + i ≤ length pp →
  (∃ ps', match_loop rp pp i ps = Matched ps') ↔ literals_agree_from i rp pp.
Proof.
  induction rp as [|part rest IH]; intros pp i ps Hlen; simpl in *.
  - split; [|by eauto]. intros _ j p seg Hp. by destruct j.
  - rewrite literals_agree_from_cons.
    destruct (pp !! i) as [seg|] eqn:Hseg;
      [|apply lookup_ge_None in Hseg; lia].
    unfold is_marker. destruct (strings.HasPrefix part ":") eqn:Hpre.
    + rewrite IH by lia. split; [|tauto]. intros Hrest. split; [|done].
      intros ? _ ?. discriminate.
    + destruct (String.eqb_spec part seg) as [->|Hne]; simpl.
      * rewrite IH by lia. split; [|tauto]. intros Hrest. split; [|done].
        intros seg' [= <-] _. done.
      * split; [intros [? ?]; discriminate|].
        intros [Hhd _]. destruct Hne. by apply Hhd.
Qed.

(** A name that no marker of [rp] carries keeps the value it had. *)
Lemma match_loop_params_other (rp : list string) : ∀ (pp : list string) i ps ps' name,
  match_loop rp pp i ps = Matched ps' →
  (∀ j part, rp !! j = Some part → is_marker part = true → tail1 part ≠ name) →
  ps' !! name = ps !! name.
Proof.
  induction rp as [|part rest IH]; intros pp i ps ps' name Hm Hno; simpl in *.
  - by injection Hm as <-.
  - destruct (pp !! i) as [seg|]; [|done].
    pose proof (Hno 0 part eq_refl) as Hhd.
    assert (Htl : ∀ j p, rest !! j = Some p → is_marker p = true →
                         tail1 p ≠ name) by (intros j p; apply (Hno (S j) p)).
    unfold is_marker in Hhd.
    destruct (strings.HasPrefix part ":").
    + rewrite (IH _ _ _ _ _ Hm Htl). apply lookup_insert_ne. by apply Hhd.
    + destruct (negb (String.eqb part seg)); [done|]. by apply (IH _ _ _ _ _ Hm Htl).
Qed.

(** The marker at position [j] binds its name to the path segment at that
    position; the binding is still there at the end unless a later marker
    carries the same name. *)
Lemma match_loop_params_bound (rp : list string) : ∀ (pp : list string) i ps ps' j part seg,
  match_loop rp pp i ps = Matched ps' →
  rp !! j = Some part → is_marker part = true → pp !! (i + j) = Some seg →
  (∀ k part', j < k → rp !! k = Some part' → is_marker part' = true →
              tail1 part' ≠ tail1 part) →
  ps' !! tail1 part = Some seg.
Proof.
  induction rp as [|p rest IH]; intros pp i ps ps' j part seg Hm Hj Hmk Hseg Hlast;
    [by destruct j|].
  simpl in Hm. destruct j as [|j]; simpl in Hj.
  - injection Hj as ->. rewrite Nat.add_0_r in Hseg. rewrite Hseg in Hm.
    unfold is_marker in Hmk. rewrite Hmk in Hm.
    rewrite (match_loop_params_other _ _ _ _ _ (tail1 part) Hm).
    + apply lookup_insert_eq.
    + intros k p' Hk Hp'. apply (Hlast (S k) p'); [lia|done..].
  - rewrite Nat.add_succ_r in Hseg.
    assert (Hlast' : ∀ k part', j < k → rest !! k = Some part' →
              is_marker part' = true → tail1 part' ≠ tail1 part).
    { intros k p' Hk. apply (Hlast (S k) p'). lia. }
    destruct (pp !! i) as [seg0|]; [|done].
    destruct (strings.HasPrefix p ":").
    + by apply (IH _ _ _ _ _ _ _ Hm Hj Hmk Hseg Hlast').
    + destruct (negb (String.eqb p seg0)); [done|].
      by apply (IH _ _ _ _ _ _ _ Hm Hj Hmk Hseg Hlast').
Qed.

(** A binding is never removed by the loop. *)
Lemma match_loop_params_kept (rp : list string) : ∀ (pp : list string) i ps ps' name,
  match_loop rp pp i ps = Matched ps' →
  is_Some (ps !! name) → is_Some (ps' !! name).
Proof.
  induction rp as [|p rest IH]; intros pp i ps ps' name Hm Hin; simpl in Hm.
  - by injection Hm as <-.
  - destruct (pp !! i) as [seg|]; [|done].
    destruct (strings.HasPrefix p ":").
    + apply (IH _ _ _ _ _ Hm). rewrite lookup_insert. case_decide; eauto.
    + destruct (negb (String.eqb p seg)); [done|]. by apply (IH _ _ _ _ _ Hm).
Qed.

(** Every marker of the pattern leaves its name bound. *)
Lemma match_loop_params_is_Some (rp : list string) : ∀ (pp : list string) i ps ps' j part,
  match_loop rp pp i ps = Matched ps' →
  rp !! j = Some part → is_marker part = true →
  is_Some (ps' !! tail1 part).
Proof.
  induction rp as [|p rest IH]; intros pp i ps ps' j part Hm Hj Hmk;
    [by destruct j|].
  simpl in Hm. destruct (pp !! i) as [seg|]; [|done].
  destruct j as [|j]; simpl in Hj.
  - injection Hj as ->. unfold is_marker in Hmk. rewrite Hmk in Hm.
    apply (match_loop_params_kept _ _ _ _ _ _ Hm).
    rewrite lookup_insert_eq. eauto.
  - destruct (strings.HasPrefix p ":").
    + by apply (IH _ _ _ _ _ _ Hm Hj).
    + destruct (negb (String.eqb p seg)); [done|]. by apply (IH _ _ _ _ _ _ Hm Hj).
Qed.

(** The loop over a pattern in two parts: the second part starts where the
    first one ended, if it ended with [match] still true. *)
Lemma match_loop_app (l1 l2 : list string) : ∀ (pp : list string) i ps,
  match_loop (l1 ++ l2) pp i ps
  = match match_loop l1 pp i ps with
    | Matched ps' => match_loop l2 pp (i + length l1) ps'
    | res => res
    end.
Proof.
  induction l1 as [|p l1 IH]; intros pp i ps; simpl.
  - by rewrite Nat.add_0_r.
  - destruct (pp !! i) as [seg|]; [|done].
    rewrite Nat.add_succ_r, <- Nat.add_succ_l.
    destruct (strings.HasPrefix p ":"); [apply IH|].
    destruct (negb (String.eqb p seg)); [done|apply IH].
Qed.

(** In a run that ends with [match] true, the pass over the marker at
    position [j] leaves its name bound to the path segment at [j]. *)
Lemma match_loop_binds_at (rp pp : list string) ps j part seg :
  match_loop rp pp 0 ∅ = Matched ps →
  rp !! j = Some part → is_marker part = true → pp !! j = Some seg →
  ∃ psj, match_loop (take (S j) rp) pp 0 ∅ = Matched psj
         ∧ psj !! tail1 part = Some seg.
Proof.
  intros Hm Hj Hmk Hseg.
  rewrite <- (take_drop (S j) rp), match_loop_app in Hm.
  rewrite (take_S_r rp j part Hj) in *.
  rewrite match_loop_app in *. simpl in *.
  destruct (match_loop (take j rp) pp 0 ∅) as [ps0| |]; try done.
  rewrite length_take_le in * by (apply lookup_lt_Some in Hj; lia).
  rewrite Hseg in *. unfold is_marker in Hmk. rewrite Hmk in *.
  eexists. split; [done|]. apply lookup_insert_eq.
Qed.

Lemma match_route_same_length routePath (pp : list string) :
  length (route_parts routePath) = length pp →
  match_route routePath pp
  = Some (match_loop (route_parts routePath) pp 0 ∅).
Proof.
  intros Hlen. unfold match_route. fold (route_parts routePath).
  rewrite Hlen, Nat.eqb_refl. done.
Qed.

Lemma match_route_other_length routePath (pp : list string) :
  length (route_parts routePath) ≠ length pp →
  match_route routePath pp = None.
Proof.
  intros Hlen. unfold match_route. fold (route_parts routePath).
  apply Nat.eqb_neq in Hlen. by rewrite Hlen.
Qed.

(** The route loop never indexes [pathParts] out of range. *)
Lemma match_route_no_panic routePath (pp : list string) :
  match_route routePath pp ≠ Some IndexPanic.
Proof.
  destruct (decide (length (route_parts routePath) = length pp)) as [Hlen|Hlen].
  - rewrite match_route_same_length by done. intros [= Hp].
    by apply match_loop_no_panic in Hp; [|lia].
  - by rewrite match_route_other_length.
Qed.

(** C1. For a pattern [P] and a path [Q] whose trimmed, split forms have the
    same number of segments, the matcher succeeds if and only if every
    literal segment of [P] equals the segment of [Q] at its position; on
    success every marker segment has bound its name to the segment of [Q]
    at its position, whatever that segment is: the binding is there right
    after the pass over the marker, and it is still there at the end unless
    a later marker carries the same name. *)
Theorem match_iff_literals_agree (P Q : string) :
  length (route_parts P) = length (path_parts Q) →
  ((∃ ps, match_route P (path_parts Q) = Some (Matched ps))
   ↔ literals_agree (route_parts P) (path_parts Q))
  ∧ (¬ literals_agree (route_parts P) (path_parts Q)
     → match_route P (path_parts Q) = Some Mismatch)
  ∧ ∀ ps, match_route P (path_parts Q) = Some (Matched ps) →
      ∀ i part seg,
        route_parts P !! i = Some part → is_marker part = true →
        path_parts Q !! i = Some seg →
        (∃ psi, match_loop (take (S i) (route_parts P)) (path_parts Q) 0 ∅
                = Matched psi
                ∧ psi !! tail1 part = Some seg)
        ∧ is_Some (ps !! tail1 part)
        ∧ ((∀ k part', i < k → route_parts P !! k = Some part' →
                       is_marker part' = true → tail1 part' ≠ tail1 part)
           → ps !! tail1 part = Some seg).
Proof.
  intros Hlen. rewrite match_route_same_length by done.
  assert (Hfit : length (route_parts P) + 0 ≤ length (path_parts Q)) by lia.
  pose proof (match_loop_matched_iff _ _ 0 ∅ Hfit) as Hiff.
  split; [|split].
  - rewrite <- Hiff. split; intros [ps Hps]; exists ps; congruence.
  - intros Hno.
    destruct (match_loop (route_parts P) (path_parts Q) 0 ∅) as [ps| |] eqn:Hm.
    + destruct Hno. apply Hiff. by exists ps.
    + done.
    + by apply match_loop_no_panic in Hm.
  - intros ps [= Hm] i part seg Hi Hmk Hseg.
    split; [by apply (match_loop_binds_at _ _ ps)|]. split.
    + by apply (match_loop_params_is_Some _ _ _ _ _ _ _ Hm Hi).
    + intros Hnolater.
      by apply (match_loop_params_bound _ _ _ _ _ _ _ _ Hm Hi).
Qed.

Lemma match_iff_literals_agree_witness :
  length (route_parts "/get-user/:userId") = length (path_parts "/get-user/abc")
  ∧ ((∃ ps, match_route "/get-user/:userId" (path_parts "/get-user/abc")
            = Some (Matched ps))
     ↔ literals_agree (route_parts "/get-user/:userId")
                      (path_parts "/get-user/abc")).
Proof.
  split; [reflexivity|].
  exact (proj1 (match_iff_literals_agree "/get-user/:userId" "/get-user/abc"
                  eq_refl)).
Defined.
Lemma is_marker_marker (part : string) :
  is_marker part = true ↔ part = marker (tail1 part).
Proof.
  unfold is_marker, strings.HasPrefix, marker.
  destruct part as [|a part]; cbn -[ascii_dec].
  - split; discriminate.
  - destruct (ascii_dec ":" a) as [<-|Hne].
    + by destruct part.
    + split; [discriminate|]. intros [= ->]. done.
Qed.

(** C10. A marker that occurs at several positions of a pattern does not
    make the match fail, and [PathParam] gives for its name the path segment
    at the last position where the marker occurs. *)
Theorem duplicate_marker_last_wins (P Q name seg : string) (i : nat)
    (r : http.Request) :
  length (route_parts P) = length (path_parts Q) →
  literals_agree (route_parts P) (path_parts Q) →
  route_parts P !! i = Some (marker name) →
  (∀ k, i < k → route_parts P !! k ≠ Some (marker name)) →
  path_parts Q !! i = Some seg →
  ∃ ps, match_route P (path_parts Q) = Some (Matched ps)
        ∧ PathParam {| httpRequest := r; params := ps |} name = seg.
Proof.
  intros Hlen Hlit Hi Hlast Hseg.
  rewrite match_route_same_length by done.
  assert (Hfit : length (route_parts P) + 0 ≤ length (path_parts Q)) by lia.
  apply (match_loop_matched_iff _ _ 0 ∅ Hfit) in Hlit as [ps Hps].
  exists ps. split; [by rewrite Hps|].
  unfold PathParam; cbn [params].
  change name with (tail1 (marker name)).
  rewrite (match_loop_params_bound _ _ _ _ _ _ (marker name) seg Hps Hi);
    [done|by apply is_marker_marker|done|].
  intros k part' Hk Hpart' Hmk Heq. apply (Hlast k Hk).
  apply is_marker_marker in Hmk. by rewrite Hpart', Hmk, Heq.
Qed.

Lemma duplicate_marker_last_wins_witness :
  ∃ ps, match_route "/pair/:id/:id" (path_parts "/pair/1/2") = Some (Matched ps)
        ∧ PathParam {| httpRequest := {| http.Method := "GET";
                                         http.URL_Path := "/pair/1/2";
                                         http.Header := ∅;
                                         http.URL_Query := ∅;
                                         http.Body := "" |};
                       params := ps |} "id" = "2".
Proof.
  apply (duplicate_marker_last_wins "/pair/:id/:id" "/pair/1/2" "id" "2" 2).
  - reflexivity.
  - intros [|[|[|j]]] part seg; simpl; intros [= <-] [= <-]; done.
  - reflexivity.
  - intros k Hk. do 3 (destruct k as [|k]; [lia|]). done.
  - reflexivity.
Defined.

(** ** The route table *)

Section RouteTable.

Context {St : Type}.
Implicit Types (s : Server St) (regs : list (registration St)).

(** [addRoute] appends to the list of its method. *)
Lemma routes_addRoute_eq s method p h :
  routes (addRoute s method p h) !! method
  = Some (default [] (routes s !! method) ++ [{| path := p; handler := h |}]).
Proof. unfold addRoute; simpl. apply lookup_insert_eq. Qed.

(** [addRoute] leaves the lists of the other methods alone. *)
Lemma routes_addRoute_ne s method method' p h :
  method ≠ method' →
  routes (addRoute s method p h) !! method' = routes s !! method'.
Proof. intros Hne. unfold addRoute; simpl. by apply lookup_insert_ne. Qed.

Lemma routes_register_all regs : ∀ s method,
  routes (register_all s regs) !! method
  = match method_routes method regs with
    | [] => routes s !! method
    | rs => Some (default [] (routes s !! method) ++ rs)
    end.
Proof.
  induction regs as [|[[m p] h] regs IH]; intros s method; [done|].
  change (register_all s ((m, p, h) :: regs))
    with (register_all (addRoute s m p h) regs).
  rewrite IH. unfold method_routes; cbn [omap list_omap fst snd].
  fold (method_routes method regs).
  destruct (decide (m = method)) as [->|Hne].
  + rewrite routes_addRoute_eq; simpl.
    destruct (method_routes method regs) as [|r0 rs]; [done|].
    by rewrite <- app_assoc.
  + by rewrite routes_addRoute_ne.
Qed.

Lemma routes_registered (NumCPU : nat) regs method :
  routes (register_all (NewServer NumCPU) regs) !! method
  = match method_routes method regs with
    | [] => None
    | rs => Some rs
    end.
Proof. rewrite routes_register_all. simpl. by rewrite lookup_empty. Qed.

(** The loop stops at the first route that matches. *)
Lemma route_loop_first (rs : list (Route St)) : ∀ (pp : list string) k route ps,
  rs !! k = Some route →
  match_route (path route) pp = Some (Matched ps) →
  (∀ j route', j < k → rs !! j = Some route' →
               ∀ ps', match_route (path route') pp ≠ Some (Matched ps')) →
  route_loop rs pp = Found route ps.
Proof.
  induction rs as [|r0 rs IH]; intros pp k route ps Hk Hm Hearlier;
    [by destruct k|].
  destruct k as [|k]; simpl in *.
  - injection Hk as ->. by rewrite Hm.
  - pose proof (Hearlier 0 r0 ltac:(lia) eq_refl) as H0.
    pose proof (match_route_no_panic (path r0) pp) as Hnp.
    assert (Hrest : route_loop rs pp = Found route ps).
    { apply (IH pp k); [done..|]. intros j r' Hj. apply (Hearlier (S j)). lia. }
    destruct (match_route (path r0) pp) as [[ps0| |]|]; try done.
    by destruct (H0 ps0).
Qed.

(** The loop over the routes never panics. *)
Lemma route_loop_no_panic (rs : list (Route St)) (pp : list string) :
  route_loop rs pp ≠ Panicked.
Proof.
  induction rs as [|r0 rs IH]; simpl; [done|].
  pose proof (match_route_no_panic (path r0) pp) as Hnp.
  by destruct (match_route (path r0) pp) as [[ps0| |]|].
Qed.

(** [handleRequest] always returns. *)
Lemma handleRequest_total s w r (st : St) : is_Some (handleRequest s w r st).
Proof.
  unfold handleRequest. destruct (routes s !! http.Method r) as [rs|]; [|eauto].
  pose proof (route_loop_no_panic rs (path_parts (http.URL_Path r))).
  destruct (route_loop rs (path_parts (http.URL_Path r))); [|eauto|done].
  destruct (handler route _ _ st). eauto.
Qed.

(** C2. After any sequence of registrations the list of a method holds its
    routes in the order of registration, and a request whose path matches
    the [k]-th of them and none before it is handed to the handler of the
    [k]-th, with the parameters bound by the pattern of the [k]-th. *)
Theorem first_registered_match_wins (NumCPU : nat) regs
    (w : ResponseWriter) (r : http.Request) (st : St)
    (k : nat) (route : Route St) (ps : gmap string string) :
  let rs := method_routes (http.Method r) regs in
  let pp := path_parts (http.URL_Path r) in
  rs !! k = Some route →
  match_route (path route) pp = Some (Matched ps) →
  (∀ j route', j < k → rs !! j = Some route' →
               ∀ ps', match_route (path route') pp ≠ Some (Matched ps')) →
  routes (register_all (NewServer NumCPU) regs) !! http.Method r = Some rs
  ∧ route_loop rs pp = Found route ps
  ∧ handleRequest (register_all (NewServer NumCPU) regs) w r st
    = Some (invoke route ps w r st).
Proof.
  intros rs pp Hk Hm Hearlier.
  assert (Hrs : routes (register_all (NewServer NumCPU) regs) !! http.Method r
                = Some rs).
  { rewrite routes_registered. fold rs. destruct rs; [by destruct k|done]. }
  pose proof (route_loop_first rs pp k route ps Hk Hm Hearlier) as Hloop.
  split; [done|]. split; [done|].
  unfold handleRequest. rewrite Hrs. fold pp. rewrite Hloop.
  unfold invoke. by destruct (handler route _ _ st).
Qed.

End RouteTable.

Lemma first_registered_match_wins_witness :
  let h : RouteHandler unit := λ req res st, (st, res) in
  let regs := [("GET", "/a/b", h); ("GET", "/users/:id", h);
               ("GET", "/users/me", h)] in
  let r := {| http.Method := "GET"; http.URL_Path := "/users/me";
              http.Header := ∅; http.URL_Query := ∅; http.Body := "" |} in
  route_loop (method_routes "GET" regs) (path_parts "/users/me")
  = Found {| path := "/users/:id"; handler := h |} {[ "id" := "me" ]}.
Proof.
  intros h regs r.
  refine (proj1 (proj2 (first_registered_match_wins 1 regs [] r tt 1
            {| path := "/users/:id"; handler := h |} {[ "id" := "me" ]}
            _ _ _))).
  - reflexivity.
  - reflexivity.
  - intros [|j] route' Hj Hr ps'; [|lia].
    injection Hr as <-. vm_compute. discriminate.
Defined.

(** ** The admission gate *)

Lemma count_phase_app f (l1 l2 : list phase) :
  count_phase f (l1 ++ l2) = count_phase f l1 + count_phase f l2.
Proof. unfold count_phase. by rewrite List.filter_app, length_app. Qed.

(** Replacing the phase at one index moves the count by that index only. *)
Lemma count_phase_insert f (l : list phase) : ∀ i p q,
  l !! i = Some p →
  count_phase f (<[i := q]> l) + Nat.b2n (f p)
  = count_phase f l + Nat.b2n (f q).
Proof.
  unfold count_phase.
  induction l as [|x l IH]; intros [|i] p q Hi; simpl in *; try done.
  - injection Hi as ->. destruct (f p), (f q); simpl; lia.
  - specialize (IH i p q Hi). destruct (f x); simpl; lia.
Qed.

Lemma gate_step_inv C g ev g' :
  gate_inv C g → gate_step g ev = Some g' → gate_inv C g'.
Proof.
  intros (Hcap & Hlen & Hle) Hstep. unfold gate_inv, holding in *.
  destruct ev as [|i|i e|i]; simpl in Hstep.
  - injection Hstep as <-; simpl. rewrite count_phase_app.
    change (count_phase holds_slot [AtSend]) with 0. lia.
  - destruct (goroutines g !! i) as [[| | |]|] eqn:Hi; try done.
    unfold chan_send in Hstep.
    destruct (chan_len (pool g) <? chan_cap (pool g)) eqn:Hlt; [|done].
    apply Nat.ltb_lt in Hlt. injection Hstep as <-; simpl.
    pose proof (count_phase_insert holds_slot _ i AtSend InBody Hi) as Hc.
    simpl in Hc. lia.
  - destruct (goroutines g !! i) as [[| | |]|] eqn:Hi; try done.
    injection Hstep as <-; simpl.
    pose proof (count_phase_insert holds_slot _ i InBody (AtDeferred e) Hi) as Hc.
    simpl in Hc. lia.
  - destruct (goroutines g !! i) as [[| |e|]|] eqn:Hi; try done.
    unfold chan_recv in Hstep.
    destruct (chan_len (pool g)) as [|n] eqn:Hn; [done|].
    injection Hstep as <-; simpl.
    pose proof (count_phase_insert holds_slot _ i (AtDeferred e) Returned Hi) as Hc.
    simpl in Hc. lia.
Qed.

Lemma gate_run_inv C evs : ∀ g g',
  gate_inv C g → gate_run g evs = Some g' → gate_inv C g'.
Proof.
  induction evs as [|ev evs IH]; intros g g' Hinv Hrun; simpl in Hrun.
  - by injection Hrun as <-.
  - destruct (gate_step g ev) as [g1|] eqn:Hstep; [|done].
    apply (IH g1); [|done]. by apply (gate_step_inv C g ev).
Qed.

Lemma gate_init_inv NumCPU : gate_inv (NumCPU * 100) (gate_init NumCPU).
Proof. repeat split; simpl; lia. Qed.

(** An invocation in the body holds a slot. *)
Lemma executing_le_holding g : executing g ≤ holding g.
Proof.
  unfold executing, holding, count_phase.
  induction (goroutines g) as [|p l IH]; simpl; [done|].
  destruct p; simpl; lia.
Qed.

(** C3. In every state the interleaved invocations of [handleRequest] can
    reach, the number of them inside the body (the handler included) is at
    most 100 times the number of CPUs: the channel holds one element for
    each invocation between its send and its deferred receive, whichever
    way the body was left, and never more than its capacity; when as many
    as the capacity hold an element no further invocation passes its send;
    and a deferred receive never blocks and gives back one element. *)
Theorem gate_bounds_executing (NumCPU : nat) (evs : list gate_event)
    (g : gate_state) :
  gate_run (gate_init NumCPU) evs = Some g →
  executing g ≤ 100 * NumCPU
  ∧ executing g ≤ holding g
  ∧ holding g ≤ 100 * NumCPU
  ∧ chan_len (pool g) = holding g
  ∧ (holding g = 100 * NumCPU → ∀ i, gate_step g (Send i) = None)
  ∧ (∀ i e, goroutines g !! i = Some (AtDeferred e) →
            ∃ g', gate_step g (Recv i) = Some g'
                  ∧ holding g' + 1 = holding g).
Proof.
  intros Hrun.
  destruct (gate_run_inv _ _ _ _ (gate_init_inv NumCPU) Hrun)
    as (Hcap & Hlen & Hle).
  pose proof (executing_le_holding g) as Hex.
  split; [lia|]. split; [done|]. split; [lia|]. split; [done|]. split.
  - intros Hfull i. simpl.
    destruct (goroutines g !! i) as [[| | |]|]; try done.
    unfold chan_send.
    destruct (chan_len (pool g) <? chan_cap (pool g)) eqn:Hlt; [|done].
    apply Nat.ltb_lt in Hlt. lia.
  - intros i e Hi.
    pose proof (count_phase_insert holds_slot _ i (AtDeferred e) Returned Hi)
      as Hc.
    simpl in Hc. unfold holding in *. simpl. rewrite Hi. unfold chan_recv.
    destruct (chan_len (pool g)) as [|n] eqn:Hn; [lia|].
    eexists. split; [done|]. simpl. lia.
Qed.

(** One CPU, 101 invocations started, 100 of them past their send: all 100
    are in the body and the last one cannot pass its send. *)
Lemma gate_bounds_executing_witness :
  let evs := replicate 101 Arrive ++ map Send (seq 0 100) in
  ∃ g, gate_run (gate_init 1) evs = Some g
       ∧ executing g = 100
       ∧ gate_step g (Send 100) = None.
Proof.
  intros evs.
  destruct (gate_run (gate_init 1) evs) as [g|] eqn:Hrun;
    [|vm_compute in Hrun; discriminate].
  exists g. split; [done|].
  assert (Hex : executing g = 100).
  { assert (Hg : Some (executing g) = Some 100); [|by injection Hg].
    change (Some (executing g)) with (executing <$> Some g).
    rewrite <- Hrun. vm_compute. reflexivity. }
  split; [done|].
  destruct (gate_bounds_executing 1 evs g Hrun) as (_ & Hle & Hcap & _ & Hfull & _).
  apply Hfull. lia.
Defined.

(** ** The response writer *)

Section ResponseProps.

Context `{MapOrder}.

Lemma flushes_app (l1 l2 : list wcall) :
  flushes (l1 ++ l2) = flushes l1 + flushes l2.
Proof. unfold flushes. by rewrite List.filter_app, length_app. Qed.

Lemma flushes_header_sets (kvs : list (string * string)) :
  flushes (map (λ kv, HeaderSet kv.1 kv.2) kvs) = 0.
Proof. unfold flushes. induction kvs as [|kv kvs IH]; simpl; auto. Qed.

Lemma writeHeaders_writer (r : Response) :
  writer (writeHeaders r) = writer r ++ flush_calls r.
Proof.
  unfold writeHeaders, flush_calls. destruct (headerWritten r); simpl.
  - by rewrite app_nil_r.
  - done.
Qed.

Lemma writeHeaders_flag (r : Response) : headerWritten (writeHeaders r) = true.
Proof. unfold writeHeaders. by destruct (headerWritten r) eqn:E. Qed.

Lemma writeHeaders_headers (r : Response) :
  headers (writeHeaders r) = headers r.
Proof. unfold writeHeaders. by destruct (headerWritten r). Qed.

Lemma writeHeaders_status (r : Response) :
  status (writeHeaders r) = status r.
Proof. unfold writeHeaders. by destruct (headerWritten r). Qed.

(** A later flush attempt is a no-op. *)
Lemma writeHeaders_flushed (r : Response) :
  headerWritten r = true → writeHeaders r = r.
Proof. intros Hw. unfold writeHeaders. by rewrite Hw. Qed.

Lemma Header_flushed (r : Response) k v :
  headerWritten r = true → Header r k v = r.
Proof. intros Hw. unfold Header. by rewrite Hw. Qed.

Lemma flushes_flush_calls (r : Response) :
  flushes (flush_calls r) = if headerWritten r then 0 else 1.
Proof.
  unfold flush_calls. destruct (headerWritten r); [done|].
  by rewrite flushes_app, flushes_header_sets.
Qed.

(** One call: what it appends to the writer holds a flush exactly when it
    sets the flag, and the flag is never cleared. *)
Lemma apply_op_flush (r : Response) (op : resp_op) :
  ∃ calls, writer (apply_op r op) = writer r ++ calls
           ∧ Nat.b2n (headerWritten r) + flushes calls
             = Nat.b2n (headerWritten (apply_op r op))
           ∧ (is_trigger op = true → headerWritten (apply_op r op) = true).
Proof.
  destruct op as [k v|s|v|data|]; simpl.
  - exists []. unfold Header. destruct (headerWritten r) eqn:E; simpl;
      rewrite ?E, app_nil_r; done.
  - exists []. simpl. by rewrite app_nil_r.
  - exists (flush_calls (Header r "Content-Type" "application/json")
            ++ [JsonEncode v]).
    unfold Json, emit; simpl. rewrite writeHeaders_writer, writeHeaders_flag.
    rewrite flushes_app, flushes_flush_calls.
    unfold Header. destruct (headerWritten r) eqn:E; simpl; rewrite ?E;
      by rewrite <- app_assoc.
  - unfold Write. destruct (headerWritten r) eqn:E; simpl.
    + destruct (String.length data =? 0).
      * exists []. by rewrite app_nil_r, E.
      * eexists. simpl. rewrite E. done.
    + set (r1 := Header r "Transfer-Encoding" "chunked").
      assert (E1 : headerWritten r1 = false) by (unfold r1, Header; by rewrite E).
      assert (W1 : writer r1 = writer r) by (unfold r1, Header; by rewrite E).
      destruct (String.length data =? 0).
      * exists (flush_calls r1). rewrite writeHeaders_writer, writeHeaders_flag, W1.
        rewrite flushes_flush_calls, E1. done.
      * eexists. simpl. rewrite writeHeaders_writer, writeHeaders_flag, W1.
        rewrite <- app_assoc. split; [done|].
        rewrite flushes_app, flushes_flush_calls, E1. done.
  - unfold End.
    destruct (String.eqb _ "chunked"); simpl.
    + eexists. rewrite writeHeaders_writer, writeHeaders_flag, <- app_assoc.
      split; [done|]. rewrite flushes_app, flushes_flush_calls.
      destruct (headerWritten r); done.
    + exists (flush_calls r). rewrite writeHeaders_writer, writeHeaders_flag.
      rewrite flushes_flush_calls. destruct (headerWritten r); done.
Qed.

Lemma run_ops_flush (ops : list resp_op) : ∀ r : Response,
  ∃ calls, writer (run_ops r ops) = writer r ++ calls
           ∧ Nat.b2n (headerWritten r) + flushes calls
             = Nat.b2n (headerWritten (run_ops r ops))
           ∧ (headerWritten (run_ops r ops) = true
              ↔ headerWritten r = true ∨ Exists (λ op, is_trigger op = true) ops).
Proof.
  induction ops as [|op ops IH]; intros r; simpl.
  - exists []. rewrite app_nil_r. split; [done|].
    split; [unfold flushes, run_ops; simpl; lia|].
    rewrite Exists_nil. tauto.
  - destruct (apply_op_flush r op) as (c1 & Hw1 & Hf1 & Ht1).
    destruct (IH (apply_op r op)) as (c2 & Hw2 & Hf2 & Ht2).
    exists (c1 ++ c2). unfold run_ops in *. simpl.
    rewrite Hw2, Hw1, <- app_assoc. split; [done|].
    rewrite flushes_app. split; [lia|].
    rewrite Ht2, Exists_cons. split.
    + intros [Hset|Hex]; [|tauto].
      destruct (headerWritten r) eqn:E; [tauto|].
      destruct (is_trigger op) eqn:Etr; [tauto|].
      destruct op; simpl in *; try done.
      * unfold Header in Hset. rewrite E in Hset. simpl in Hset. congruence.
      * congruence.
    + intros [Hr|[Htr|Hex]]; [|tauto..].
      left. destruct (headerWritten (apply_op r op)) eqn:E'; [done|].
      rewrite Hr in Hf1. simpl in Hf1. lia.
Qed.

(** C4. Whatever calls are made on a response and in whatever order, what
    they append to the underlying writer contains at most one header flush:
    exactly one when one of [Json], [Write], [End] was among the calls, and
    none otherwise; once the flag is set a flush attempt changes nothing. *)
Theorem flush_at_most_once (w : ResponseWriter) (ops : list resp_op) :
  let r := run_ops (NewResponse w) ops in
  ∃ calls, writer r = w ++ calls
           ∧ flushes calls ≤ 1
           ∧ (flushes calls = 1 ↔ Exists (λ op, is_trigger op = true) ops)
           ∧ (headerWritten r = true ↔ flushes calls = 1)
           ∧ (headerWritten r = true → writeHeaders r = r)
           ∧ ∀ more, ∃ calls',
               writer (run_ops r more) = writer r ++ calls'
               ∧ flushes (calls ++ calls') ≤ 1.
Proof.
  intros r. destruct (run_ops_flush ops (NewResponse w)) as (calls & Hw & Hf & Ht).
  fold r in Hw, Hf, Ht. simpl in Hw, Hf, Ht.
  exists calls. split; [done|].
  assert (Hfl : headerWritten r = true ↔ flushes calls = 1).
  { destruct (headerWritten r); simpl in Hf; split; (done || lia). }
  split; [destruct (headerWritten r); simpl in Hf; lia|].
  split. { rewrite <- Hfl, Ht. split; [intros [?|?]; done|tauto]. }
  split; [done|]. split; [apply writeHeaders_flushed|].
  intros more. destruct (run_ops_flush more r) as (calls' & Hw' & Hf' & _).
  exists calls'. split; [done|]. rewrite flushes_app.
  destruct (headerWritten (run_ops r more)); simpl in Hf'; lia.
Qed.

(** After the flush the [status] field is dead: responses that differ in
    it only stay so, call after call. *)
Lemma apply_op_same_but_status (r1 r2 : Response) (op : resp_op) :
  headerWritten r1 = true → same_but_status r1 r2 →
  headerWritten (apply_op r1 op) = true
  ∧ same_but_status (apply_op r1 op) (apply_op r2 op).
Proof.
  intros Hw1 (Hwr & Hfl & Hh). assert (Hw2 : headerWritten r2 = true) by congruence.
  unfold same_but_status.
  destruct op as [k v|s|v|data|]; simpl.
  - by rewrite !Header_flushed.
  - done.
  - unfold Json. rewrite !Header_flushed, !writeHeaders_flushed by done.
    simpl. by rewrite Hwr.
  - unfold Write. rewrite Hw1, Hw2; simpl.
    destruct (String.length data =? 0); simpl; [done|]. by rewrite Hwr.
  - unfold End. rewrite !writeHeaders_flushed by done. rewrite Hh.
    destruct (String.eqb _ "chunked"); simpl; [|done]. by rewrite Hwr.
Qed.

Lemma run_ops_same_but_status (ops : list resp_op) : ∀ r1 r2 : Response,
  headerWritten r1 = true → same_but_status r1 r2 →
  same_but_status (run_ops r1 ops) (run_ops r2 ops).
Proof.
  induction ops as [|op ops IH]; intros r1 r2 Hw Hs; [done|].
  destruct (apply_op_same_but_status r1 r2 op Hw Hs) as [Hw' Hs'].
  by apply (IH _ _ Hw' Hs').
Qed.

Lemma run_ops_flag_kept (ops : list resp_op) (r : Response) :
  headerWritten r = true → headerWritten (run_ops r ops) = true.
Proof.
  intros Hw. destruct (run_ops_flush ops r) as (_ & _ & _ & Ht).
  apply Ht. by left.
Qed.

(** C5. Once a writing call ([Json], [Write] or [End]) has been made on a
    response, a call of [Header] leaves the response as it is and a call of
    [Status] leaves the writer, the flag and the headers as they are; and
    whatever calls follow, the writer receives the same calls as if the
    [Header] or [Status] call had not been made. *)
Theorem status_header_after_write_ignored (r0 : Response)
    (trig : resp_op) (mid later : list resp_op) (k v s : string) :
  is_trigger trig = true →
  let r := run_ops (apply_op r0 trig) mid in
  headerWritten r = true
  ∧ Header r k v = r
  ∧ writer (Status r s) = writer r
  ∧ headers (Status r s) = headers r
  ∧ headerWritten (Status r s) = true
  ∧ writer (run_ops (Header r k v) later) = writer (run_ops r later)
  ∧ writer (run_ops (Status r s) later) = writer (run_ops r later)
  ∧ ∃ calls, writer (run_ops (Status r s) later) = writer r ++ calls
             ∧ flushes calls = 0.
Proof.
  intros Htrig r.
  assert (Hw : headerWritten r = true).
  { apply run_ops_flag_kept.
    destruct (apply_op_flush r0 trig) as (_ & _ & _ & Ht). by apply Ht. }
  split; [done|]. split; [by apply Header_flushed|].
  split; [done|]. split; [done|]. split; [done|].
  split; [by rewrite Header_flushed|].
  assert (Hsame : same_but_status (Status r s) r) by done.
  split; [by apply (run_ops_same_but_status later (Status r s) r)|].
  destruct (run_ops_flush later (Status r s)) as (calls & Hwr & Hf & _).
  exists calls. split; [done|].
  rewrite (run_ops_flag_kept later (Status r s) Hw) in Hf.
  simpl in Hf. rewrite Hw in Hf. simpl in Hf. lia.
Qed.

(** C6, as the code has it. [Write] with no bytes appends no body bytes
    to the writer and leaves the status as it is; on a response whose
    headers are flushed it changes nothing at all; on a response whose
    headers are not yet flushed it records [Transfer-Encoding: chunked],
    flushes the headers and sets the flag. *)
Theorem write_empty (r : Response) :
  status (Write r "") = status r
  ∧ (∃ calls, writer (Write r "") = writer r ++ calls
              ∧ List.filter is_body_write calls = [])
  ∧ (headerWritten r = true → Write r "" = r)
  ∧ (headerWritten r = false →
       Write r "" = writeHeaders (Header r "Transfer-Encoding" "chunked")
       ∧ headerWritten (Write r "") = true
       ∧ headers (Write r "") = <["Transfer-Encoding" := "chunked"]> (headers r)
       ∧ writer (Write r "")
         = writer r
           ++ map (λ kv, HeaderSet kv.1 kv.2)
                  (range_headers (<["Transfer-Encoding" := "chunked"]> (headers r)))
           ++ [WriteHeader (status r)]).
Proof.
  unfold Write; simpl. destruct (headerWritten r) eqn:E; simpl.
  - split; [done|]. split; [exists []; by rewrite app_nil_r|]. done.
  - unfold writeHeaders, Header; rewrite E; simpl.
    split; [done|]. split; [|done].
    eexists. split; [done|]. rewrite List.filter_app; simpl.
    rewrite app_nil_r.
    induction (range_headers _) as [|kv l IH]; simpl; auto.
Qed.


Lemma values_set_app name (l1 l2 : list wcall) :
  values_set name (l1 ++ l2) = values_set name l1 ++ values_set name l2.
Proof. unfold values_set. apply omap_app. Qed.

(** Among the entries of a map, one carries the key [name]. *)
Lemma values_set_entries name v (l : list (string * string)) :
  NoDup l.*1 → (name, v) ∈ l →
  values_set name (map (λ kv, HeaderSet kv.1 kv.2) l) = [v].
Proof.
  unfold values_set. induction l as [|[k x] l IH]; intros Hnd Hin; simpl in *.
  - by apply elem_of_nil in Hin.
  - apply NoDup_cons in Hnd as [Hk Hnd]. apply elem_of_cons in Hin as [Heq|Hin].
    + injection Heq as <- <-. rewrite decide_True by done. f_equal.
      clear IH Hnd. induction l as [|[k' x'] l IH]; simpl in *; [done|].
      rewrite decide_False.
      * apply IH. intros Hin. apply Hk. by right.
      * intros ->. apply Hk. by left.
    + rewrite decide_False; [by apply IH|].
      intros ->. apply Hk. apply list_elem_of_fmap. by exists (name, v).
Qed.

(** The flush sets a recorded header once, to its recorded value. *)
Lemma values_set_flush_calls (r : Response) name v :
  headerWritten r = false → headers r !! name = Some v →
  values_set name (flush_calls r) = [v].
Proof.
  intros Hw Hv. unfold flush_calls. rewrite Hw, values_set_app; simpl.
  rewrite app_nil_r.
  assert (Hp : values_set name (map (λ kv, HeaderSet kv.1 kv.2)
                                    (range_headers (headers r)))
               ≡ₚ values_set name (map (λ kv, HeaderSet kv.1 kv.2)
                                       (map_to_list (headers r)))).
  { unfold values_set. apply omap_Permutation, fmap_Permutation.
    apply range_headers_perm. }
  rewrite (values_set_entries name v (map_to_list (headers r))) in Hp.
  - by apply Permutation_singleton_r in Hp.
  - apply NoDup_fst_map_to_list.
  - by apply elem_of_map_to_list.
Qed.

Lemma Json_writer (r : Response) v :
  writer (Json r v)
  = writer r ++ flush_calls (Header r "Content-Type" "application/json")
             ++ [JsonEncode v].
Proof.
  unfold Json, emit; cbn [writer]. rewrite writeHeaders_writer, <- app_assoc.
  unfold Header at 1. by destruct (headerWritten r).
Qed.

Lemma Write_writer (r : Response) data :
  headerWritten r = false →
  writer (Write r data)
  = writer r ++ flush_calls (Header r "Transfer-Encoding" "chunked")
             ++ (if String.length data =? 0 then []
                 else [WriteBytes (hex (String.length data) ++ CRLF)%string;
                       WriteBytes data; WriteBytes CRLF]).
Proof.
  intros Hw. unfold Write. rewrite Hw; cbn [negb].
  destruct (String.length data =? 0); unfold emit; cbn [writer];
    rewrite writeHeaders_writer; unfold Header at 1; rewrite Hw; cbn [negb writer].
  - by rewrite app_nil_r.
  - by rewrite <- app_assoc.
Qed.

Lemma End_writer (r : Response) :
  writer (End r)
  = writer r ++ flush_calls r
             ++ (if String.eqb (default "" (headers r !! "Transfer-Encoding"))
                               "chunked"
                 then [WriteBytes ("0" ++ CRLF ++ CRLF)%string] else []).
Proof.
  unfold End. rewrite writeHeaders_headers.
  destruct (String.eqb _ "chunked"); unfold emit; cbn [writer];
    rewrite writeHeaders_writer.
  - by rewrite <- app_assoc.
  - by rewrite app_nil_r.
Qed.

Lemma writer_header_app h (l1 l2 : list wcall) :
  writer_header h (l1 ++ l2) = writer_header (writer_header h l1) l2.
Proof. unfold writer_header. apply foldl_app. Qed.

(** Calls other than [Set] leave the header of the writer alone. *)
Lemma writer_header_no_set (l : list wcall) : ∀ h,
  Forall (λ c, is_header_set c = false) l → writer_header h l = h.
Proof.
  induction l as [|c l IH]; intros h Hall; [done|].
  apply Forall_cons in Hall as [Hc Hall]. destruct c; try done; by apply IH.
Qed.

(** A name that no [Set] call reaches keeps what was stored under it. *)
Lemma writer_header_sets_other (kvs : list (string * string)) key : ∀ h,
  Forall (λ kv, textproto.CanonicalMIMEHeaderKey kv.1 ≠ key) kvs →
  writer_header h (map (λ kv, HeaderSet kv.1 kv.2) kvs) !! key = h !! key.
Proof.
  induction kvs as [|[k v] kvs IH]; intros h Hall; [done|].
  apply Forall_cons in Hall as [Hk Hall]. cbn. fold (writer_header).
  change (foldl _ ?h0 ?l) with (writer_header h0 l).
  rewrite IH by done. by apply lookup_insert_ne.
Qed.

(** After [Set] calls of which one at least reaches the name, the writer
    holds one value under it, that of one of these calls. *)
Lemma writer_header_sets_some (kvs : list (string * string)) key : ∀ h,
  Exists (λ kv, textproto.CanonicalMIMEHeaderKey kv.1 = key) kvs →
  ∃ k v, (k, v) ∈ kvs ∧ textproto.CanonicalMIMEHeaderKey k = key
         ∧ writer_header h (map (λ kv, HeaderSet kv.1 kv.2) kvs) !! key
           = Some [v].
Proof.
  induction kvs as [|[k v] kvs IH]; intros h Hex;
    [by apply Exists_nil in Hex|].
  cbn. change (foldl _ ?h0 ?l) with (writer_header h0 l).
  destruct (decide (Exists (λ kv, textproto.CanonicalMIMEHeaderKey kv.1 = key)
                           kvs)) as [Hrest|Hrest].
  - destruct (IH (<[textproto.CanonicalMIMEHeaderKey k := [v]]> h) Hrest)
      as (k' & v' & Hin & Hk' & Hv').
    exists k', v'. split; [by right|done].
  - apply Exists_cons in Hex as [Hk|?]; [|done]. simpl in Hk.
    exists k, v. split; [by left|]. split; [done|].
    rewrite writer_header_sets_other.
    + rewrite <- Hk. apply lookup_insert_eq.
    + apply Forall_forall. intros kv Hin Heq. apply Hrest.
      apply Exists_exists. by exists kv.
Qed.

(** What a writing call appends to the writer of a response whose headers
    are not yet flushed: a [Set] for each recorded header, its own
    included, one [WriteHeader], then body writes only. *)
Lemma trigger_calls (r : Response) (trig : resp_op) :
  headerWritten r = false → is_trigger trig = true →
  ∃ body,
    writer (apply_op r trig)
    = writer r
      ++ map (λ kv, HeaderSet kv.1 kv.2) (range_headers (flushed_headers r trig))
      ++ [WriteHeader (status r)] ++ body
    ∧ Forall (λ c, is_body_write c = true) body.
Proof.
  intros Hw Htrig. unfold flushed_headers.
  destruct trig as [| |v|data|]; try done; cbn [apply_op own_entry].
  - rewrite Json_writer. unfold flush_calls, Header; rewrite Hw; simpl.
    exists [JsonEncode v]. rewrite <- !app_assoc. split; [done|].
    by repeat constructor.
  - rewrite Write_writer by done. unfold flush_calls, Header; rewrite Hw; simpl.
    eexists. rewrite <- !app_assoc. split; [done|].
    destruct (String.length data =? 0); by repeat constructor.
  - rewrite End_writer. unfold flush_calls; rewrite Hw.
    eexists. rewrite <- !app_assoc. split; [done|].
    destruct (String.eqb _ "chunked"); by repeat constructor.
Qed.

(** C9, as the code has it. On a response whose headers are not yet
    flushed, after [Header(name, v1)] and [Header(name, v2)] the response
    records the one value [v2] for [name]. The writing call that flushes
    next makes one [Set] call with the name [name]: with [v2], or with its
    own value when it records [name] itself first ([Json] records
    [Content-Type: application/json], [Write] records
    [Transfer-Encoding: chunked]), its value then replacing [v2]. The
    writer stores headers under the canonical form of their names: after
    the flush it holds exactly one value under the canonical form of
    [name], the value recorded for some name of that canonical form, and
    this is the value of that one [Set] call when no other recorded name
    has the same canonical form. Request headers are handed out as lists
    of values. *)
Theorem header_last_write_wins (r : Response) (name v1 v2 : string)
    (trig : resp_op) :
  headerWritten r = false →
  is_trigger trig = true →
  let r' := Header (Header r name v1) name v2 in
  let recorded := flushed_headers r' trig in
  let key := textproto.CanonicalMIMEHeaderKey name in
  let value := value_at_flush name v2 trig in
  headers r' !! name = Some v2
  ∧ headers r' = <[name := v2]> (headers r)
  ∧ writer r' = writer r
  ∧ recorded !! name = Some value
  ∧ (own_header trig ≠ Some name → value = v2)
  ∧ (∀ v, trig = OpJson v → name = "Content-Type" →
          value = "application/json")
  ∧ (∀ data, trig = OpWrite data → name = "Transfer-Encoding" →
             value = "chunked")
  ∧ (∃ calls,
       writer (apply_op r' trig) = writer r ++ calls
       ∧ values_set name calls = [value]
       ∧ ∀ h,
           (∃ k v, recorded !! k = Some v
                   ∧ textproto.CanonicalMIMEHeaderKey k = key
                   ∧ writer_header h calls !! key = Some [v])
           ∧ ((∀ k, is_Some (recorded !! k) →
                    textproto.CanonicalMIMEHeaderKey k = key → k = name) →
              writer_header h calls !! key = Some [value]))
  ∧ ∀ req : Request, Headers req = http.Header (httpRequest req).
Proof.
  intros Hw Htrig r' recorded key value.
  assert (Hr' : r' = {| writer := writer r; headerWritten := false;
                        status := status r;
                        headers := <[name := v2]> (headers r) |}).
  { unfold r', Header. rewrite Hw; simpl. by rewrite insert_insert_eq. }
  assert (Hw' : headerWritten r' = false) by by rewrite Hr'.
  assert (Hwr : writer r' = writer r) by by rewrite Hr'.
  assert (Hh : headers r' !! name = Some v2).
  { rewrite Hr'. apply lookup_insert_eq. }
  assert (Hrec : recorded !! name = Some value).
  { unfold recorded, value, flushed_headers, value_at_flush.
    destruct (own_entry trig) as [[k v]|]; [|done].
    rewrite lookup_insert. by destruct (decide (k = name)). }
  split; [done|]. split; [by rewrite Hr'|]. split; [done|]. split; [done|].
  split.
  { intros Hown. unfold value, value_at_flush.
    destruct trig; try done; simpl in *; by rewrite decide_False by congruence. }
  split; [by intros v -> ->|]. split; [by intros data -> ->|].
  split; [|done].
  destruct (trigger_calls r' trig Hw' Htrig) as (body & Hcalls & Hbody).
  fold recorded in Hcalls. rewrite Hwr in Hcalls.
  eexists. split; [exact Hcalls|].
  assert (Hnoset : Forall (λ c, is_header_set c = false)
                          ([WriteHeader (status r')] ++ body)).
  { constructor; [done|]. eapply Forall_impl; [exact Hbody|].
    by intros []. }
  assert (Hin : (name, value) ∈ range_headers recorded).
  { rewrite range_headers_perm. by apply elem_of_map_to_list. }
  split.
  - rewrite values_set_app.
    assert (Hv : values_set name ([WriteHeader (status r')] ++ body) = []).
    { clear -Hbody. simpl. induction Hbody as [|c l Hc _ IH]; [done|].
      destruct c; try done; apply IH. }
    rewrite Hv, app_nil_r.
    assert (Hp : values_set name (map (λ kv, HeaderSet kv.1 kv.2)
                                      (range_headers recorded))
                 ≡ₚ values_set name (map (λ kv, HeaderSet kv.1 kv.2)
                                         (map_to_list recorded))).
    { unfold values_set. apply omap_Permutation, fmap_Permutation.
      apply range_headers_perm. }
    rewrite (values_set_entries name value (map_to_list recorded)) in Hp.
    + by apply Permutation_singleton_r in Hp.
    + apply NoDup_fst_map_to_list.
    + by apply elem_of_map_to_list.
  - intros h. rewrite writer_header_app, (writer_header_no_set _ _ Hnoset).
    destruct (writer_header_sets_some (range_headers recorded) key h)
      as (k & v & Hkv & Hk & Hv).
    { apply Exists_exists. by exists (name, value). }
    assert (Hkrec : recorded !! k = Some v).
    { rewrite range_headers_perm in Hkv. by apply elem_of_map_to_list in Hkv. }
    split; [by exists k, v|].
    intros Honly. rewrite Hv. do 2 f_equal.
    rewrite (Honly k ltac:(by eexists) Hk) in Hkrec. congruence.
Qed.

End ResponseProps.

Lemma status_header_after_write_ignored_witness :
  let H := map_to_list_order in
  let r := run_ops (apply_op (NewResponse []) (OpJson (VString "ok"))) [] in
  writer (run_ops (Status r "500") [OpEnd]) = writer (run_ops r [OpEnd]).
Proof.
  intros H r.
  exact (proj1 (proj2 (proj2 (proj2 (proj2 (proj2 (proj2
           (@status_header_after_write_ignored H (NewResponse [])
              (OpJson (VString "ok")) [] [OpEnd] "X-Late" "1" "500"
              eq_refl)))))))).
Defined.


(** C6 fails as stated: on a fresh response [Write] with no bytes sets the
    flag, records a header and flushes. *)
Lemma write_empty_flushes_fresh_response :
  let r := @Write map_to_list_order (NewResponse []) "" in
  headerWritten (NewResponse []) = false
  ∧ headerWritten r = true
  ∧ headers r = {[ "Transfer-Encoding" := "chunked" ]}
  ∧ writer r = [HeaderSet "Transfer-Encoding" "chunked"; WriteHeader 200].
Proof. vm_compute. repeat split. Qed.

Lemma header_last_write_wins_witness :
  let H := map_to_list_order in
  let r' := Header (Header (NewResponse []) "X-Trace" "one") "X-Trace" "two" in
  ∃ calls, writer (Json r' (VString "ok")) = [] ++ calls
           ∧ values_set "X-Trace" calls = ["two"]
           ∧ writer_header ∅ calls !! "X-Trace" = Some ["two"].
Proof.
  intros H r'.
  destruct (@header_last_write_wins H (NewResponse []) "X-Trace" "one" "two"
              (OpJson (VString "ok")) eq_refl eq_refl)
    as (_ & _ & _ & _ & _ & _ & _ & (calls & Hcalls & Hset & Hhdr) & _).
  exists calls. split; [exact Hcalls|]. split; [exact Hset|].
  apply (proj2 (Hhdr ∅)).
  intros k [v Hk] Hcanon.
  change (({[ "Content-Type" := "application/json"; "X-Trace" := "two" ]}
             : gmap string string) !! k = Some v) in Hk.
  apply lookup_insert_Some in Hk as [[<- _]|[_ Hk]].
  - vm_compute in Hcanon. discriminate Hcanon.
  - apply lookup_singleton_Some in Hk as [<- _]. reflexivity.
Defined.

(** C9 fails as stated for the header that the flushing call records
    itself: [Json] replaces the recorded [Content-Type]. *)
Lemma header_overridden_by_Json :
  let r' := Header (Header (NewResponse []) "Content-Type" "text/plain")
                   "Content-Type" "text/html" in
  let out := writer (@Json map_to_list_order r' (VString "hello")) in
  headerWritten (NewResponse []) = false
  ∧ out = [HeaderSet "Content-Type" "application/json"; WriteHeader 200;
           JsonEncode (VString "hello")]
  ∧ values_set "Content-Type" out ≠ ["text/html"]
  ∧ writer_header ∅ out !! "Content-Type" = Some ["application/json"].
Proof. vm_compute. repeat split. discriminate. Qed.

(** The same with [Write] and [Transfer-Encoding]. *)
Example header_overridden_by_Write :
  let r' := Header (Header (NewResponse []) "Transfer-Encoding" "gzip")
                   "Transfer-Encoding" "identity" in
  writer (@Write map_to_list_order r' "")
  = [HeaderSet "Transfer-Encoding" "chunked"; WriteHeader 200].
Proof. reflexivity. Qed.

Example CanonicalMIMEHeaderKey_lower :
  textproto.CanonicalMIMEHeaderKey "content-type" = "Content-Type".
Proof. reflexivity. Qed.

Example CanonicalMIMEHeaderKey_mixed :
  textproto.CanonicalMIMEHeaderKey "x-TRACE-id" = "X-Trace-Id".
Proof. reflexivity. Qed.

Example CanonicalMIMEHeaderKey_space :
  textproto.CanonicalMIMEHeaderKey "my header" = "my header".
Proof. reflexivity. Qed.

(** Names that differ in case only end up in one header of the writer,
    with the value of the later [Set]. *)
Example writer_header_case_variants :
  writer_header ∅ [HeaderSet "content-type" "text/plain";
                   HeaderSet "Content-Type" "text/html"]
  = {[ "Content-Type" := ["text/html"] ]}.
Proof. reflexivity. Qed.

(** ** The demo program *)

Lemma fast_loop_not_digits (s : string) : ∀ n,
  all_digits s = false → strconv.fast_loop s n = None.
Proof.
  induction s as [|c s IH]; intros n Hd; simpl in *; [done|].
  destruct (strconv.is_digit c); simpl in *; [by apply IH|done].
Qed.

(** A range error of the digit loop comes with the largest value. *)
Lemma uint_loop_range (s : string) : ∀ n v,
  strconv.uint_loop s n = (v, Some strconv.ErrRange) → v = strconv.maxUint64.
Proof.
  induction s as [|c s IH]; intros n v Hl; simpl in Hl; [done|].
  destruct (negb (strconv.is_digit c)); [done|].
  destruct (_ <=? n)%Z; [by injection Hl|].
  destruct (_ <? _)%Z; [by injection Hl|]. by apply (IH _ _ Hl).
Qed.

Lemma uint_loop_not_digits (s : string) : ∀ n,
  all_digits s = false → ∃ v e, strconv.uint_loop s n = (v, Some e).
Proof.
  induction s as [|c s IH]; intros n Hd; simpl in *; [done|].
  destruct (strconv.is_digit c); simpl in *; [|by eauto].
  destruct (_ <=? n)%Z; [by eauto|].
  destruct (_ <? _)%Z; [by eauto|]. by apply IH.
Qed.

Lemma ParseInt_not_literal (s : string) :
  is_integer_literal s = false → ∃ v e, strconv.ParseInt s = (v, Some e).
Proof.
  intros Hl. destruct s as [|c s]; [by eexists _, _|].
  unfold strconv.ParseInt. unfold is_integer_literal in Hl.
  set (digits := if strconv.is_sign c then s else String c s) in *.
  destruct digits as [|d ds] eqn:Hdig; [by eexists _, _|].
  unfold strconv.ParseUint.
  destruct (uint_loop_not_digits (String d ds) 0%Z Hl) as (v & e & Hu).
  rewrite Hu. destruct e; [by eexists _, _|].
  apply uint_loop_range in Hu as ->.
  destruct (Ascii.eqb c "-"); simpl; by eexists _, _.
Qed.

(** [Atoi] returns an error on whatever is no integer literal. *)
Lemma Atoi_not_literal (s : string) :
  is_integer_literal s = false → ∃ v e, strconv.Atoi s = (v, Some e).
Proof.
  intros Hl. unfold strconv.Atoi.
  destruct (_ && _); [|by apply ParseInt_not_literal].
  destruct s as [|c s]; [by eexists _, _|].
  unfold is_integer_literal in Hl.
  destruct (if strconv.is_sign c then s else String c s) as [|d ds];
    [by eexists _, _|].
  rewrite fast_loop_not_digits by done. by eexists _, _.
Qed.

Section MainProps.

Context `{MapOrder} `{JsonDecoder User}.

Lemma range_headers_singleton k v : range_headers {[ k := v ]} = [(k, v)].
Proof.
  pose proof (range_headers_perm {[ k := v ]}) as Hp.
  rewrite map_to_list_singleton in Hp. by apply Permutation_singleton_r in Hp.
Qed.

(** What a handler writes with [res.Status(code).Json(body)] on the
    response it was handed. *)
Lemma Status_Json_fresh (w : ResponseWriter) (code : string) (body : goval) :
  writer (Json (Status (NewResponse w) code) body)
  = w ++ json_headers ++ [WriteHeader (strconv.Atoi code).1; JsonEncode body].
Proof.
  rewrite Json_writer. unfold flush_calls, Header, Status; simpl.
  rewrite insert_empty, range_headers_singleton. done.
Qed.

Lemma app_routes_GET NumCPU : routes (app NumCPU) !! "GET" = Some get_routes.
Proof. reflexivity. Qed.

Lemma app_routes_POST NumCPU : routes (app NumCPU) !! "POST" = Some post_routes.
Proof. reflexivity. Qed.

(** C8. A GET request whose path has the two segments [get-user] and a
    segment that is no integer literal is routed to the handler of
    [/get-user/:userId], which answers with status 400 and the JSON body
    [{error: Invalid UserId}]; the repository is left as it is. *)
Theorem get_user_invalid_id (NumCPU : nat) (w : ResponseWriter)
    (r : http.Request) (repo : UserRepository) (seg : string) :
  http.Method r = "GET" →
  path_parts (http.URL_Path r) = ["get-user"; seg] →
  is_integer_literal seg = false →
  routes (app NumCPU) !! http.Method r = Some get_routes
  ∧ route_loop get_routes (path_parts (http.URL_Path r))
  = Found {| path := "/get-user/:userId"; handler := get_user |}
          {[ "userId" := seg ]}
  ∧ handleRequest (app NumCPU) w r repo
    = Some (repo, w ++ json_headers
                    ++ [WriteHeader 400;
                        JsonEncode (VMap [("error", VString "Invalid UserId")])]).
Proof.
  intros Hm Hp Hseg.
  assert (Hloop : route_loop get_routes (path_parts (http.URL_Path r))
                  = Found {| path := "/get-user/:userId"; handler := get_user |}
                          {[ "userId" := seg ]}).
  { rewrite Hp. reflexivity. }
  split; [by rewrite Hm, app_routes_GET|]. split; [done|].
  unfold handleRequest. rewrite Hm, app_routes_GET, Hloop.
  cbn [handler get_user]. unfold get_user, PathParam; cbn [params].
  rewrite lookup_singleton_eq; cbn [default].
  unfold id. destruct (Atoi_not_literal seg Hseg) as (v & e & ->).
  by rewrite Status_Json_fresh.
Qed.

(** [Add] gives the new user the length of the list plus one as id and
    appends it. *)
Lemma Add_users (ur : UserRepository) (user : User) :
  users (Add ur user).1 = users ur ++ [(Add ur user).2]
  ∧ ID (Add ur user).2 = (Z.of_nat (length (users ur)) + 1)%Z
  ∧ Name (Add ur user).2 = Name user
  ∧ Phone (Add ur user).2 = Phone user
  ∧ Age (Add ur user).2 = Age user.
Proof. done. Qed.

Lemma add_all_snoc (ur : UserRepository) added user :
  add_all ur (added ++ [user]) = (Add (add_all ur added) user).1.
Proof. unfold add_all. by rewrite foldl_app. Qed.

(** Ids count up from one in every repository built by [Add] from the
    seed. *)
Lemma add_all_ids (added : list User) :
  ids_from 0 (users (add_all NewUserRepository added)).
Proof.
  induction added as [|user added IH] using rev_ind.
  - intros [|[|[|i]]] u [= <-]; done.
  - rewrite add_all_snoc. set (ur := add_all NewUserRepository added) in *.
    destruct (Add_users ur user) as (-> & Hid & _).
    intros i u Hi. apply lookup_app_Some in Hi as [Hi|[Hge Hi]].
    + by apply IH.
    + apply list_lookup_singleton_Some in Hi as [Hi <-]. rewrite Hid. lia.
Qed.

Lemma max_id_ids_from (us : list User) : ∀ k : nat,
  ids_from k us →
  max_id us = match us with [] => 0%Z | _ => Z.of_nat (k + length us) end.
Proof.
  induction us as [|u us IH]; intros k Hids; [done|].
  assert (Hu : ID u = (Z.of_nat k + 1)%Z).
  { rewrite (Hids 0 u eq_refl). lia. }
  assert (Hrest : ids_from (S k) us).
  { intros i x Hi. rewrite (Hids (S i) x Hi). lia. }
  cbn [max_id foldr]. fold (max_id us). rewrite (IH (S k) Hrest), Hu.
  destruct us; simpl length; lia.
Qed.

Lemma max_id_add_all (added : list User) :
  max_id (users (add_all NewUserRepository added))
  = Z.of_nat (length (users (add_all NewUserRepository added))).
Proof.
  rewrite (max_id_ids_from _ 0 (add_all_ids added)).
  destruct (users _); simpl; lia.
Qed.

(** C7. From the seed repository and after any sequence of [Add] calls,
    [POST /add-student] with the body of the scenario answers with status
    201 and stores a record whose id is one more than the largest id
    before; [GET /get-all-users] then answers with a list that includes
    that record. *)
Theorem add_student_then_listed (NumCPU : nat) (added : list User)
    (w1 w2 : ResponseWriter) (post get : http.Request) :
  let repo := add_all NewUserRepository added in
  http.Method post = "POST" →
  path_parts (http.URL_Path post) = ["add-student"] →
  http.Body post = teja_body →
  json_decode teja_body = Some teja →
  http.Method get = "GET" →
  path_parts (http.URL_Path get) = ["get-all-users"] →
  ∃ repo' newUser,
    handleRequest (app NumCPU) w1 post repo
    = Some (repo',
            w1 ++ json_headers
               ++ [WriteHeader 201;
                   JsonEncode
                     (VMap [("message", VString "Student added successfully");
                            ("user", User_val newUser)])])
    ∧ newUser = {| ID := max_id (users repo) + 1; Name := "Teja";
                   Phone := "123"; Age := 30 |}
    ∧ users repo' = users repo ++ [newUser]
    ∧ handleRequest (app NumCPU) w2 get repo'
      = Some (repo',
              w2 ++ json_headers
                 ++ [WriteHeader 200;
                     JsonEncode (VSlice (map User_val (users repo')))])
    ∧ newUser ∈ users repo'
    ∧ User_val newUser ∈ map User_val (users repo').
Proof.
  intros repo Hm Hp Hb Hdec Hm' Hp'.
  exists (Add repo teja).1, (Add repo teja).2.
  assert (Hnew : (Add repo teja).2
                 = {| ID := max_id (users repo) + 1; Name := "Teja";
                      Phone := "123"; Age := 30 |}).
  { unfold repo. rewrite max_id_add_all. done. }
  split; [|split; [done|split; [done|split]]].
  - unfold handleRequest. rewrite Hm, app_routes_POST, Hp.
    cbn [route_loop post_routes]. 
    change (match_route (path {| path := "/add-student"; handler := add_student |})
                        ["add-student"]) with (Some (Matched ∅)).
    cbn [handler add_student]. unfold add_student, Body; cbn [httpRequest].
    rewrite Hb, Hdec. cbn [teja Name Phone Age String.eqb Ascii.eqb].
    change (String.eqb "Teja" "") with false.
    change (String.eqb "123" "") with false.
    change (30 <=? 0)%Z with false. cbv iota.
    destruct (Add repo _) as [repo' newUser] eqn:HAdd.
    by rewrite Status_Json_fresh.
  - unfold handleRequest. rewrite Hm', app_routes_GET, Hp'.
    change (route_loop get_routes ["get-all-users"])
      with (Found {| path := "/get-all-users"; handler := get_all_users |} ∅).
    cbn [handler get_all_users]. unfold get_all_users, GetAll.
    by rewrite Status_Json_fresh.
  - split.
    + destruct (Add_users repo teja) as (-> & _). apply elem_of_app. right.
      by apply list_elem_of_singleton.
    + apply list_elem_of_fmap. eexists. split; [done|].
      destruct (Add_users repo teja) as (-> & _). apply elem_of_app. right.
      by apply list_elem_of_singleton.
Qed.

End MainProps.

Lemma get_user_invalid_id_witness :
  let H := map_to_list_order in
  let D := scenario_decoder in
  handleRequest (app 1) [] (request "GET" "/get-user/abc" "") NewUserRepository
  = Some (NewUserRepository,
          [HeaderSet "Content-Type" "application/json"; WriteHeader 400;
           JsonEncode (VMap [("error", VString "Invalid UserId")])]).
Proof.
  intros H D.
  exact (proj2 (proj2 (@get_user_invalid_id H D 1 []
                  (request "GET" "/get-user/abc" "") NewUserRepository "abc"
                  eq_refl eq_refl eq_refl))).
Defined.

Lemma add_student_then_listed_witness :
  let H := map_to_list_order in
  let D := scenario_decoder in
  ∃ repo' newUser,
    handleRequest (app 1) [] (request "POST" "/add-student" teja_body)
                  NewUserRepository
    = Some (repo',
            [HeaderSet "Content-Type" "application/json"; WriteHeader 201;
             JsonEncode (VMap [("message", VString "Student added successfully");
                               ("user", User_val newUser)])])
    ∧ newUser = {| ID := 4; Name := "Teja"; Phone := "123"; Age := 30 |}.
Proof.
  intros H D.
  destruct (@add_student_then_listed H D 1 [] [] []
              (request "POST" "/add-student" teja_body)
              (request "GET" "/get-all-users" "")
              eq_refl eq_refl eq_refl eq_refl eq_refl eq_refl)
    as (repo' & newUser & Hpost & Hnew & _).
  exists repo', newUser. split; [exact Hpost | exact Hnew].
Defined.

(** * Further properties *)

(** ** Paths and patterns *)

Lemma TrimLeft_slash_app (p : string) :
  strings.TrimLeft (p ++ "/") "/"
  = match strings.TrimLeft p "/" with
    | EmptyString => EmptyString
    | t => (t ++ "/")%string
    end.
Proof.
  induction p as [|a p IH]; [done|].
  change (String a p ++ "/")%string with (String a (p ++ "/")%string).
  cbn [strings.TrimLeft].
  destruct (strings.in_cutset a "/"); [apply IH|done].
Qed.

Lemma TrimRight_slash_app (q : string) :
  strings.TrimRight (q ++ "/") "/" = strings.TrimRight q "/".
Proof.
  induction q as [|a q IH]; [done|].
  change (String a q ++ "/")%string with (String a (q ++ "/")%string).
  cbn [strings.TrimRight]. by rewrite IH.
Qed.

Lemma Trim_slash_cons (p : string) :
  strings.Trim (String "/" p) "/" = strings.Trim p "/".
Proof. done. Qed.

Lemma Trim_slash_app (p : string) :
  strings.Trim (p ++ "/") "/" = strings.Trim p "/".
Proof.
  unfold strings.Trim. rewrite TrimLeft_slash_app.
  destruct (strings.TrimLeft p "/") as [|a t] eqn:E; [done|].
  apply TrimRight_slash_app.
Qed.

(** X1. Leading and trailing slashes do not matter, neither in a request
    path nor in a registered pattern: with one more slash in front or at the
    end the segments are the same, and so is the outcome of matching. *)
Theorem outer_slashes_ignored (p P : string) (pp : list string) :
  path_parts (String "/" p) = path_parts p
  ∧ path_parts (p ++ "/") = path_parts p
  ∧ match_route (String "/" P) pp = match_route P pp
  ∧ match_route (P ++ "/") pp = match_route P pp.
Proof.
  unfold path_parts, match_route.
  by rewrite !Trim_slash_cons, !Trim_slash_app.
Qed.

Lemma Split_nonempty (s : string) (c : ascii) : strings.Split s c ≠ [].
Proof.
  destruct s as [|a s]; simpl; [done|].
  destruct (Ascii.eqb a c); [done|]. by destruct (strings.Split s c).
Qed.

Lemma Split_no_sep (s : string) (c : ascii) :
  Forall (λ seg, has_byte c seg = false) (strings.Split s c).
Proof.
  induction s as [|a s IH]; simpl; [by repeat constructor|].
  destruct (Ascii.eqb a c) eqn:E; [by constructor|].
  pose proof (Split_nonempty s c) as Hne.
  destruct (strings.Split s c) as [|seg segs]; [done|].
  apply Forall_cons in IH as [Hseg Hsegs].
  constructor; [|done]. simpl. by rewrite E.
Qed.

Lemma Join_cons_char (a : ascii) (seg : string) (segs : list string) sep :
  Join (String a seg :: segs) sep = String a (Join (seg :: segs) sep).
Proof. by destruct segs. Qed.

(** Joining the pieces with the separator gives the string back. *)
Lemma Join_Split (s : string) (c : ascii) :
  Join (strings.Split s c) (String c EmptyString) = s.
Proof.
  induction s as [|a s IH]; simpl; [done|].
  destruct (Ascii.eqb_spec a c) as [->|Hne].
  - pose proof (Split_nonempty s c).
    destruct (strings.Split s c) as [|seg segs]; [done|].
    change (Join ("" :: seg :: segs) (String c ""))
      with (String c (Join (seg :: segs) (String c ""))).
    by rewrite IH.
  - pose proof (Split_nonempty s c).
    destruct (strings.Split s c) as [|seg segs]; [done|].
    by rewrite Join_cons_char, IH.
Qed.

Lemma Split_head_empty (s : string) (c : ascii) :
  head (strings.Split s c) = Some EmptyString →
  s = EmptyString ∨ starts_with c s = true.
Proof.
  destruct s as [|a s]; [by left|]. simpl.
  destruct (Ascii.eqb a c); [by right|].
  by destruct (strings.Split s c).
Qed.

Lemma Split_last_empty (s : string) (c : ascii) :
  last (strings.Split s c) = Some EmptyString →
  s = EmptyString ∨ ends_with c s = true.
Proof.
  induction s as [|a s IH]; [by left|]. intros Hl. right.
  simpl in Hl. pose proof (Split_nonempty s c) as Hne.
  destruct (Ascii.eqb a c) eqn:E.
  - destruct (strings.Split s c) as [|seg segs] eqn:Es; [done|].
    rewrite last_cons_cons in Hl.
    destruct (IH Hl) as [->|He]; simpl; [done|].
    by destruct s.
  - destruct (strings.Split s c) as [|seg segs] eqn:Es; [done|].
    destruct segs as [|seg' segs]; [done|].
    rewrite last_cons_cons in Hl. rewrite <- (last_cons_cons seg) in Hl.
    destruct (IH Hl) as [->|He]; [done|].
    simpl. by destruct s.
Qed.

Lemma TrimRight_no_trailing (q : string) :
  ends_with "/" (strings.TrimRight q "/") = false.
Proof.
  induction q as [|a q IH]; [done|]. cbn [strings.TrimRight].
  destruct (strings.TrimRight q "/") as [|b t].
  - destruct (strings.in_cutset a "/") eqn:E; [done|].
    simpl in *. by destruct (Ascii.eqb a "/").
  - done.
Qed.

Lemma Trim_no_leading (p : string) :
  starts_with "/" (strings.Trim p "/") = false.
Proof.
  unfold strings.Trim.
  assert (Hl : starts_with "/" (strings.TrimLeft p "/") = false).
  { induction p as [|a p IH]; [done|]. cbn [strings.TrimLeft].
    destruct (strings.in_cutset a "/") eqn:E; [done|].
    simpl in *. by destruct (Ascii.eqb a "/"). }
  destruct (strings.TrimLeft p "/") as [|a t]; [done|].
  cbn [strings.TrimRight].
  destruct (strings.TrimRight t "/"); [|done].
  by destruct (strings.in_cutset a "/").
Qed.

(** X2. The segments of a request path: there is at least one, none
    contains a slash, joined by slashes they give the trimmed path back, and
    unless the trimmed path is empty (the segments are then the one empty
    segment) neither the first nor the last segment is empty. *)
Theorem path_parts_shape (p : string) :
  path_parts p ≠ []
  ∧ Forall (λ seg, has_byte slash seg = false) (path_parts p)
  ∧ Join (path_parts p) "/" = strings.Trim p "/"
  ∧ (strings.Trim p "/" = EmptyString → path_parts p = [EmptyString])
  ∧ (strings.Trim p "/" ≠ EmptyString →
       head (path_parts p) ≠ Some EmptyString
       ∧ last (path_parts p) ≠ Some EmptyString).
Proof.
  unfold path_parts.
  split; [apply Split_nonempty|]. split; [apply Split_no_sep|].
  split; [apply Join_Split|]. split; [by intros ->|].
  intros Hne. split.
  - intros Hh. apply Split_head_empty in Hh as [?|Hs]; [done|].
    unfold slash in Hs. by rewrite Trim_no_leading in Hs.
  - intros Hl. apply Split_last_empty in Hl as [?|He]; [done|].
    unfold slash, strings.Trim in He. by rewrite TrimRight_no_trailing in He.
Qed.

(** X3. The parameters of a match are bound under the names of the markers
    of the pattern and under no other name: [PathParam] gives the empty
    string for every name that is no marker of the matched pattern. *)
Theorem params_are_the_markers (P : string) (pp : list string)
    (ps : gmap string string) (r : http.Request) :
  match_route P pp = Some (Matched ps) →
  ∀ name,
    (is_Some (ps !! name) ↔ marker name ∈ route_parts P)
    ∧ (marker name ∉ route_parts P →
         PathParam {| httpRequest := r; params := ps |} name = EmptyString).
Proof.
  intros Hm name.
  destruct (decide (length (route_parts P) = length pp)) as [Hlen|Hlen];
    [|by rewrite match_route_other_length in Hm].
  rewrite match_route_same_length in Hm by done. injection Hm as Hm.
  assert (Hother : marker name ∉ route_parts P → ps !! name = None).
  { intros Hnot.
    rewrite (match_loop_params_other _ _ _ _ _ name Hm); [done|].
    intros j part Hj Hmk Heq. apply Hnot.
    apply is_marker_marker in Hmk. rewrite Heq in Hmk. rewrite <- Hmk.
    by apply list_elem_of_lookup_2 in Hj. }
  split; [split|].
  - intros Hs. destruct (decide (marker name ∈ route_parts P)); [done|].
    rewrite Hother in Hs by done. by destruct Hs.
  - intros Hin. apply list_elem_of_lookup in Hin as [j Hj].
    apply (match_loop_params_is_Some _ _ _ _ _ _ _ Hm Hj).
    by apply is_marker_marker.
  - intros Hnot. unfold PathParam; cbn [params]. by rewrite Hother.
Qed.

Lemma params_are_the_markers_witness :
  PathParam {| httpRequest := request "GET" "/get-user/7" "";
               params := {[ "userId" := "7" ]} |} "id" = "".
Proof.
  refine (proj2 (params_are_the_markers "/get-user/:userId"
                   (path_parts "/get-user/7") {[ "userId" := "7" ]}
                   (request "GET" "/get-user/7" "") eq_refl "id") _).
  intros Hin. repeat (apply elem_of_cons in Hin as [Heq|Hin]; [discriminate|]).
  by apply elem_of_nil in Hin.
Defined.

(** ** Dispatch *)

Section DispatchProps.

Context {St : Type}.
Implicit Types (s : Server St) (rs : list (Route St)).

(** A route found by the loop is the first one that matches. *)
Lemma route_loop_Found rs : ∀ (pp : list string) route ps,
  route_loop rs pp = Found route ps →
  ∃ k, rs !! k = Some route
       ∧ match_route (path route) pp = Some (Matched ps)
       ∧ ∀ j route', j < k → rs !! j = Some route' →
                     ∀ ps', match_route (path route') pp ≠ Some (Matched ps').
Proof.
  induction rs as [|r0 rs IH]; intros pp route ps Hl; simpl in Hl; [done|].
  destruct (match_route (path r0) pp) as [[ps0| |]|] eqn:Hm0; try done.
  - injection Hl as <- <-. exists 0. split; [done|]. split; [done|]. lia.
  - destruct (IH _ _ _ Hl) as (k & Hk & Hm & Hbefore).
    exists (S k). split; [done|]. split; [done|].
    intros [|j] route' Hj Hr ps'.
    + injection Hr as <-. by rewrite Hm0.
    + apply (Hbefore j); [lia|done].
  - destruct (IH _ _ _ Hl) as (k & Hk & Hm & Hbefore).
    exists (S k). split; [done|]. split; [done|].
    intros [|j] route' Hj Hr ps'.
    + injection Hr as <-. by rewrite Hm0.
    + apply (Hbefore j); [lia|done].
Qed.

Lemma route_loop_NoRoute rs (pp : list string) :
  route_loop rs pp = NoRoute ↔
  ∀ route, route ∈ rs → ∀ ps, match_route (path route) pp ≠ Some (Matched ps).
Proof.
  induction rs as [|r0 rs IH]; simpl.
  - split; [|done]. intros _ route Hin. by apply elem_of_nil in Hin.
  - pose proof (match_route_no_panic (path r0) pp) as Hnp.
    destruct (match_route (path r0) pp) as [[ps0| |]|] eqn:Hm0; try done.
    + split; [done|]. intros Hall. destruct (Hall r0 ltac:(by left) ps0).
      done.
    + rewrite IH. split.
      * intros Hall route Hin ps. apply elem_of_cons in Hin as [->|Hin];
          [by rewrite Hm0|by apply Hall].
      * intros Hall route Hin. apply Hall. by right.
    + rewrite IH. split.
      * intros Hall route Hin ps. apply elem_of_cons in Hin as [->|Hin];
          [by rewrite Hm0|by apply Hall].
      * intros Hall route Hin. apply Hall. by right.
Qed.

(** X4. Whatever route the loop hands the request to is a registered route
    of the method that really matches: its pattern has as many segments as
    the path, its literal segments agree with the path, and no route
    registered before it matches. *)
Theorem found_route_matches rs (pp : list string) (route : Route St)
    (ps : gmap string string) :
  route_loop rs pp = Found route ps →
  route ∈ rs
  ∧ match_route (path route) pp = Some (Matched ps)
  ∧ length (route_parts (path route)) = length pp
  ∧ literals_agree (route_parts (path route)) pp
  ∧ ∃ k, rs !! k = Some route
         ∧ ∀ j route', j < k → rs !! j = Some route' →
                       ∀ ps', match_route (path route') pp ≠ Some (Matched ps').
Proof.
  intros Hl. destruct (route_loop_Found _ _ _ _ Hl) as (k & Hk & Hm & Hbefore).
  split; [by apply list_elem_of_lookup_2 in Hk|]. split; [done|].
  assert (Hlen : length (route_parts (path route)) = length pp).
  { destruct (decide (length (route_parts (path route)) = length pp)); [done|].
    by rewrite match_route_other_length in Hm. }
  split; [done|]. split; [|by exists k].
  rewrite match_route_same_length in Hm by done. injection Hm as Hm.
  apply (match_loop_matched_iff _ _ 0 ∅); [lia|by exists ps].
Qed.

(** X5. A request is answered with [http.NotFound], and the state behind
    the handlers is left alone, when the method has no route list or no
    route of its list matches the path; and when some route of the list
    matches, a handler is called. *)
Theorem not_found_iff_nothing_matches s (w : ResponseWriter)
    (r : http.Request) (st : St) :
  let pp := path_parts (http.URL_Path r) in
  ((∀ rs, routes s !! http.Method r = Some rs →
          ∀ route, route ∈ rs →
                   ∀ ps, match_route (path route) pp ≠ Some (Matched ps))
   → handleRequest s w r st = Some (st, w ++ [HttpNotFound]))
  ∧ (∀ rs route0 ps0,
       routes s !! http.Method r = Some rs → route0 ∈ rs →
       match_route (path route0) pp = Some (Matched ps0) →
       ∃ route ps, route_loop rs pp = Found route ps
                   ∧ handleRequest s w r st = Some (invoke route ps w r st)).
Proof.
  intros pp. unfold handleRequest. fold pp. split.
  - intros Hnone. destruct (routes s !! http.Method r) as [rs|]; [|done].
    by rewrite (proj2 (route_loop_NoRoute rs pp) (Hnone rs eq_refl)).
  - intros rs route0 ps0 -> Hin Hm.
    pose proof (route_loop_no_panic rs pp) as Hnp.
    destruct (route_loop rs pp) as [route ps| |] eqn:Hl; [|exfalso|done].
    + exists route, ps. split; [done|]. unfold invoke.
      by destruct (handler route _ _ st).
    + by apply (proj1 (route_loop_NoRoute rs pp) Hl route0 Hin ps0).
Qed.

(** X6. The index into [pathParts] is always in range: whatever routes are
    registered and whatever the request, neither the loop over the routes
    nor [handleRequest] ends in a panic of its own. *)
Theorem dispatch_never_panics s (w : ResponseWriter) (r : http.Request)
    (st : St) rs (pp : list string) :
  route_loop rs pp ≠ Panicked
  ∧ ∃ st' w', handleRequest s w r st = Some (st', w').
Proof.
  split; [apply route_loop_no_panic|].
  unfold handleRequest. destruct (routes s !! http.Method r) as [rs'|]; [|eauto].
  pose proof (route_loop_no_panic rs' (path_parts (http.URL_Path r))).
  destruct (route_loop rs' (path_parts (http.URL_Path r))); [|eauto|done].
  destruct (handler route _ _ st). eauto.
Qed.

Lemma route_loop_app_Found rs extra (pp : list string) route ps :
  route_loop rs pp = Found route ps →
  route_loop (rs ++ extra) pp = Found route ps.
Proof.
  induction rs as [|r0 rs IH]; simpl; [done|].
  destruct (match_route (path r0) pp) as [[ps0| |]|]; auto.
Qed.

(** X7. Registering further routes never takes a request away from the
    route that answered it: a request that found a route still finds the
    same route, with the same parameters, after any sequence of further
    registrations; and registrations under other methods change nothing for
    the request. *)
Theorem registration_keeps_dispatch s (regs : list (registration St))
    (w : ResponseWriter) (r : http.Request) (st : St) :
  let pp := path_parts (http.URL_Path r) in
  (method_routes (http.Method r) regs = [] →
     handleRequest (register_all s regs) w r st = handleRequest s w r st)
  ∧ (∀ rs route ps,
       routes s !! http.Method r = Some rs →
       route_loop rs pp = Found route ps →
       (∃ rs', routes (register_all s regs) !! http.Method r = Some (rs ++ rs')
               ∧ route_loop (rs ++ rs') pp = Found route ps)
       ∧ handleRequest (register_all s regs) w r st = handleRequest s w r st).
Proof.
  intros pp. split.
  - intros Hnone. unfold handleRequest.
    by rewrite routes_register_all, Hnone.
  - intros rs route ps Hrs Hl.
    assert (Hrs' : routes (register_all s regs) !! http.Method r
                   = Some (rs ++ method_routes (http.Method r) regs)).
    { rewrite routes_register_all, Hrs; simpl.
      destruct (method_routes _ regs); [by rewrite app_nil_r|done]. }
    pose proof (route_loop_app_Found rs (method_routes (http.Method r) regs)
                  pp route ps Hl) as Hl'.
    split; [by eexists|].
    unfold handleRequest. fold pp. by rewrite Hrs', Hrs, Hl', Hl.
Qed.

(** X8. [Any] appends the route to the lists of GET, POST, PUT and DELETE,
    each list keeping the routes it had in front, and touches the list of no
    other method. *)
Theorem Any_registers_four_methods s (route : string)
    (h : RouteHandler St) (method : string) :
  routes (Any s route h) !! method
  = if bool_decide (method ∈ any_methods)
    then Some (default [] (routes s !! method)
               ++ [{| path := route; handler := h |}])
    else routes s !! method.
Proof.
  unfold Any, Delete, Put, Post, Get, any_methods,
    http.MethodGet, http.MethodPost, http.MethodPut, http.MethodDelete.
  destruct (decide (method = "DELETE")) as [->|Hd].
  { rewrite routes_addRoute_eq, !routes_addRoute_ne by done. done. }
  rewrite (routes_addRoute_ne _ "DELETE") by done.
  destruct (decide (method = "PUT")) as [->|Hp].
  { rewrite routes_addRoute_eq, !routes_addRoute_ne by done. done. }
  rewrite (routes_addRoute_ne _ "PUT") by done.
  destruct (decide (method = "POST")) as [->|Hpo].
  { rewrite routes_addRoute_eq, !routes_addRoute_ne by done. done. }
  rewrite (routes_addRoute_ne _ "POST") by done.
  destruct (decide (method = "GET")) as [->|Hg].
  { by rewrite routes_addRoute_eq. }
  rewrite (routes_addRoute_ne _ "GET") by done.
  rewrite bool_decide_eq_false_2; [done|].
  intros Hin. repeat (apply elem_of_cons in Hin as [?|Hin]; [done|]).
  by apply elem_of_nil in Hin.
Qed.

End DispatchProps.

Lemma found_route_matches_witness :
  let h : RouteHandler unit := λ req res st, (st, res) in
  let rs := [ {| path := "/a/b"; handler := h |};
              {| path := "/users/:id"; handler := h |} ] in
  length (route_parts "/users/:id") = length (path_parts "/users/me").
Proof.
  intros h rs.
  exact (proj1 (proj2 (proj2
           (found_route_matches rs (path_parts "/users/me")
              {| path := "/users/:id"; handler := h |} {[ "id" := "me" ]}
              eq_refl)))).
Defined.

Lemma literal_parts_equal (rp : list string) : ∀ (pp : list string) i,
  Forall (λ part, is_marker part = false) rp →
  literals_agree_from i rp pp →
  length rp + i = length pp →
  rp = drop i pp.
Proof.
  induction rp as [|part rp IH]; intros pp i Hlit Hagree Hlen.
  - simpl in Hlen. rewrite drop_ge by lia. done.
  - apply Forall_cons in Hlit as [Hpart Hlit].
    apply literals_agree_from_cons in Hagree as [Hhd Htl].
    destruct (lookup_lt_is_Some_2 pp i) as [seg Hseg]; [simpl in Hlen; lia|].
    rewrite (drop_S pp seg i Hseg). f_equal; [by apply Hhd|].
    apply IH; [done..|simpl in Hlen; lia].
Qed.

(** X22. A pattern without markers matches exactly the paths that are equal
    to it once the outer slashes are trimmed from both, and it binds no
    parameter; so the empty pattern and the pattern of slashes only match
    exactly the root path. *)
Theorem literal_pattern_matches_itself (P Q : string) :
  Forall (λ part, is_marker part = false) (route_parts P) →
  ((∃ ps, match_route P (path_parts Q) = Some (Matched ps))
   ↔ strings.Trim P "/" = strings.Trim Q "/")
  ∧ (∀ ps, match_route P (path_parts Q) = Some (Matched ps) → ps = ∅).
Proof.
  intros Hlit. split; [split|].
  - intros [ps Hm].
    destruct (decide (length (route_parts P) = length (path_parts Q)))
      as [Hlen|Hlen]; [|by rewrite match_route_other_length in Hm].
    rewrite match_route_same_length in Hm by done. injection Hm as Hm.
    assert (Hagree : literals_agree_from 0 (route_parts P) (path_parts Q)).
    { apply (match_loop_matched_iff _ _ 0 ∅); [lia|by exists ps]. }
    pose proof (literal_parts_equal _ _ 0 Hlit Hagree ltac:(lia)) as Heq.
    rewrite drop_0 in Heq. unfold route_parts, path_parts in Heq.
    rewrite <- (Join_Split (strings.Trim P "/") slash), Heq.
    apply Join_Split.
  - intros Heq.
    assert (Hparts : route_parts P = path_parts Q).
    { unfold route_parts, path_parts. by rewrite Heq. }
    rewrite match_route_same_length by by rewrite Hparts.
    destruct (proj2 (match_loop_matched_iff (route_parts P) (path_parts Q) 0 ∅
                       ltac:(rewrite Hparts; lia))) as [ps Hps].
    + rewrite Hparts. intros j part seg Hj Hseg _. simpl in Hseg. congruence.
    + exists ps. by rewrite Hps.
  - intros ps Hm.
    destruct (decide (length (route_parts P) = length (path_parts Q)))
      as [Hlen|Hlen]; [|by rewrite match_route_other_length in Hm].
    rewrite match_route_same_length in Hm by done. injection Hm as Hm.
    apply map_eq. intros name.
    apply (match_loop_params_other _ _ _ _ _ name Hm).
    intros j part Hj Hmk. rewrite Forall_lookup in Hlit.
    rewrite (Hlit j part Hj) in Hmk. done.
Qed.

Lemma literal_pattern_matches_itself_witness :
  (∃ ps, match_route "/" (path_parts "///") = Some (Matched ps))
  ↔ strings.Trim "/" "/" = strings.Trim "///" "/".
Proof.
  refine (proj1 (literal_pattern_matches_itself "/" "///" _)).
  repeat constructor.
Defined.

(** ** The admission gate, progress *)

Lemma count_phase_pos f (l : list phase) :
  0 < count_phase f l → ∃ i p, l !! i = Some p ∧ f p = true.
Proof.
  unfold count_phase. induction l as [|x l IH]; simpl; [lia|].
  destruct (f x) eqn:E.
  - intros _. by exists 0, x.
  - intros Hpos. destruct (IH Hpos) as (i & p & Hi & Hp). by exists (S i), p.
Qed.

Lemma count_phase_zero f (l : list phase) :
  Forall (λ p, f p = false) l → count_phase f l = 0.
Proof.
  unfold count_phase. induction 1 as [|x l Hx _ IH]; simpl; [done|].
  by rewrite Hx.
Qed.

(** X9. With at least one CPU the gate never gets stuck: in every reachable
    state in which some invocation has not returned, some invocation can
    take its next step; an invocation waiting at its send passes as soon as
    fewer than the capacity hold an element; and when no invocation is
    between its send and its deferred receive the channel is empty again. *)
Theorem gate_makes_progress (NumCPU : nat) (evs : list gate_event)
    (g : gate_state) :
  1 ≤ NumCPU →
  gate_run (gate_init NumCPU) evs = Some g →
  (∀ i, goroutines g !! i = Some AtSend → holding g < 100 * NumCPU →
        ∃ g', gate_step g (Send i) = Some g' ∧ holding g' = holding g + 1)
  ∧ (∀ i p, goroutines g !! i = Some p → p ≠ Returned →
            ∃ ev g', ev ≠ Arrive ∧ gate_step g ev = Some g')
  ∧ (Forall (λ p, holds_slot p = false) (goroutines g) →
       chan_len (pool g) = 0).
Proof.
  intros Hcpu Hrun.
  destruct (gate_run_inv _ _ _ _ (gate_init_inv NumCPU) Hrun)
    as (Hcap & Hlen & Hle).
  assert (Hsend : ∀ i, goroutines g !! i = Some AtSend →
            holding g < 100 * NumCPU →
            ∃ g', gate_step g (Send i) = Some g' ∧ holding g' = holding g + 1).
  { intros i Hi Hfree. simpl. rewrite Hi. unfold chan_send.
    destruct (chan_len (pool g) <? chan_cap (pool g)) eqn:Hlt;
      [|apply Nat.ltb_ge in Hlt; lia].
    eexists. split; [done|]. unfold holding; simpl.
    pose proof (count_phase_insert holds_slot _ i AtSend InBody Hi) as Hc.
    simpl in Hc. lia. }
  split; [done|]. split.
  - intros i p Hi Hp.
    destruct (Nat.eq_dec (holding g) 0) as [Hz|Hnz].
    + destruct p as [| |e|]; [|exfalso..|done].
      * destruct (Hsend i Hi ltac:(lia)) as (g' & Hg' & _).
        by exists (Send i), g'.
      * pose proof (count_phase_insert holds_slot _ i InBody Returned Hi) as Hc.
        unfold holding in Hz. simpl in Hc. lia.
      * pose proof (count_phase_insert holds_slot _ i (AtDeferred e) Returned Hi)
          as Hc.
        unfold holding in Hz. simpl in Hc. lia.
    + destruct (count_phase_pos holds_slot (goroutines g)) as (j & q & Hj & Hq);
        [unfold holding in Hnz; lia|].
      destruct q as [| |e|]; try done.
      * exists (Leave j ExitHandled). eexists. split; [done|]. simpl.
        by rewrite Hj.
      * exists (Recv j). simpl. rewrite Hj. unfold chan_recv.
        destruct (chan_len (pool g)) as [|n]; [lia|]. by eexists.
  - intros Hnone. rewrite Hlen. by apply count_phase_zero.
Qed.

(** Two CPUs, three invocations, the first past its send and out of the
    body: the second may pass its send. *)
Lemma gate_makes_progress_witness :
  let evs := [Arrive; Arrive; Arrive; Send 0; Leave 0 ExitNoMatch] in
  ∃ g g', gate_run (gate_init 2) evs = Some g
          ∧ gate_step g (Send 1) = Some g'.
Proof.
  intros evs.
  destruct (gate_run (gate_init 2) evs) as [g|] eqn:Hrun;
    [|vm_compute in Hrun; discriminate].
  exists g.
  assert (Hg : Some (goroutines g !! 1, holding g) = Some (Some AtSend, 1)).
  { change (Some (goroutines g !! 1, holding g))
      with ((λ g, (goroutines g !! 1, holding g)) <$> Some g).
    rewrite <- Hrun. vm_compute. reflexivity. }
  injection Hg as Hi Hh.
  destruct (gate_makes_progress 2 evs g ltac:(lia) Hrun) as (Hsend & _).
  destruct (Hsend 1 Hi ltac:(lia)) as (g' & Hg' & _).
  by exists g'.
Defined.

(** ** The response writer, composed calls *)

Section ResponseMore.

Context `{MapOrder}.

Lemma Write_flushed (r : Response) (data : string) :
  headerWritten r = true →
  writer (Write r data) = writer r ++ frame data
  ∧ headerWritten (Write r data) = true
  ∧ headers (Write r data) = headers r.
Proof.
  intros Hw. unfold Write, frame. rewrite Hw; cbn [negb].
  destruct (String.length data =? 0); simpl; [by rewrite app_nil_r|done].
Qed.

Lemma run_writes_flushed (datas : list string) : ∀ r : Response,
  headerWritten r = true →
  writer (run_ops r (map OpWrite datas)) = writer r ++ frames datas
  ∧ headerWritten (run_ops r (map OpWrite datas)) = true
  ∧ headers (run_ops r (map OpWrite datas)) = headers r.
Proof.
  induction datas as [|d datas IH]; intros r Hw.
  - unfold frames; simpl. by rewrite app_nil_r.
  - destruct (Write_flushed r d Hw) as (Hwr & Hfl & Hh).
    destruct (IH (Write r d) Hfl) as (Hwr' & Hfl' & Hh').
    change (run_ops r (map OpWrite (d :: datas)))
      with (run_ops (Write r d) (map OpWrite datas)).
    rewrite Hwr', Hwr, Hfl', Hh', Hh.
    unfold frames; simpl. by rewrite <- app_assoc.
Qed.

Lemma End_flushed (r : Response) :
  headerWritten r = true →
  writer (End r) = writer r ++ (if chunked r then [terminator] else [])
  ∧ headerWritten (End r) = true
  ∧ headers (End r) = headers r.
Proof.
  intros Hw. unfold End, chunked. rewrite writeHeaders_flushed by done.
  destruct (String.eqb _ "chunked"); simpl; [done|by rewrite app_nil_r].
Qed.

(** Chunks and the end of the stream on a response whose headers are
    flushed. *)
Lemma run_writes_End_flushed (datas : list string) (r : Response) :
  headerWritten r = true →
  writer (run_ops r (map OpWrite datas ++ [OpEnd]))
  = writer r ++ frames datas ++ (if chunked r then [terminator] else []).
Proof.
  intros Hw. unfold run_ops. rewrite foldl_app. fold (run_ops r (map OpWrite datas)).
  destruct (run_writes_flushed datas r Hw) as (Hwr & Hfl & Hh).
  cbn [foldl apply_op].
  destruct (End_flushed _ Hfl) as (Hwr' & _).
  rewrite Hwr', Hwr, <- app_assoc. unfold chunked. by rewrite Hh.
Qed.

(** X10. A response written with [Write] only and closed with [End] is a
    complete chunked stream: the header [Transfer-Encoding: chunked] and the
    status 200 are flushed once, by the first [Write], each [Write] with
    bytes adds one chunk (its length in hexadecimal, the bytes, each followed
    by CR LF), a [Write] without bytes adds nothing, and [End] adds the
    terminating chunk. *)
Theorem writes_then_End_chunked_stream (w : ResponseWriter)
    (data : string) (datas : list string) :
  writer (run_ops (NewResponse w) (map OpWrite (data :: datas) ++ [OpEnd]))
  = w ++ [HeaderSet "Transfer-Encoding" "chunked"; WriteHeader 200]
      ++ frames (data :: datas) ++ [terminator].
Proof.
  change (run_ops (NewResponse w) (map OpWrite (data :: datas) ++ [OpEnd]))
    with (run_ops (Write (NewResponse w) data) (map OpWrite datas ++ [OpEnd])).
  set (r0 := NewResponse w).
  set (r1 := writeHeaders (Header r0 "Transfer-Encoding" "chunked")).
  assert (Hw1 : headerWritten r1 = true) by done.
  assert (Hwr1 : writer r1 = w ++ [HeaderSet "Transfer-Encoding" "chunked";
                                  WriteHeader 200]).
  { unfold r1. rewrite writeHeaders_writer. unfold flush_calls, Header; simpl.
    by rewrite insert_empty, range_headers_singleton. }
  assert (Hr : Write r0 data = emit r1 (frame data)
               ∨ (frame data = [] ∧ Write r0 data = r1)).
  { unfold Write, frame. cbn [r0 NewResponse headerWritten negb]. fold r0 r1.
    destruct (String.length data =? 0); [by right|by left]. }
  assert (Hch : ∀ r, headers r = headers r1 → chunked r = true).
  { intros r Hh. unfold chunked. rewrite Hh. unfold r1.
    rewrite writeHeaders_headers. done. }
  destruct Hr as [->|[Hnil ->]].
  - rewrite run_writes_End_flushed by done.
    rewrite (Hch (emit r1 (frame data)) eq_refl).
    cbn [emit writer]. rewrite Hwr1. unfold frames; simpl.
    by rewrite <- !app_assoc.
  - rewrite run_writes_End_flushed by done. rewrite (Hch r1 eq_refl), Hwr1.
    unfold frames; simpl. rewrite Hnil. by rewrite <- !app_assoc.
Qed.

Lemma values_set_frames name (datas : list string) :
  values_set name (frames datas) = [].
Proof.
  unfold frames. induction datas as [|d datas IH]; [done|].
  simpl. rewrite values_set_app, IH. unfold frame.
  by destruct (String.length d =? 0).
Qed.

(** X11. On a response first flushed by [Json], later [Write] calls still
    add their chunks after the encoded value, but the header
    [Transfer-Encoding] is never set on the writer and [End] adds nothing:
    the chunks are left without their terminating chunk. *)
Theorem Json_then_writes_unterminated (w : ResponseWriter) (v : goval)
    (datas : list string) :
  let r := run_ops (NewResponse w) (OpJson v :: map OpWrite datas) in
  writer r = w ++ [HeaderSet "Content-Type" "application/json";
                   WriteHeader 200; JsonEncode v] ++ frames datas
  ∧ writer (End r) = writer r
  ∧ values_set "Transfer-Encoding" (writer r)
    = values_set "Transfer-Encoding" w.
Proof.
  intros r.
  assert (Hr : r = run_ops (Json (NewResponse w) v) (map OpWrite datas)) by done.
  assert (Hj : headerWritten (Json (NewResponse w) v) = true) by done.
  destruct (run_writes_flushed datas _ Hj) as (Hwr & Hfl & Hh).
  rewrite <- Hr in Hwr, Hfl, Hh.
  assert (Hout : writer r = w ++ [HeaderSet "Content-Type" "application/json";
                                WriteHeader 200; JsonEncode v] ++ frames datas).
  { rewrite Hwr, Json_writer. unfold flush_calls, Header; simpl.
    rewrite insert_empty, range_headers_singleton. simpl.
    by rewrite <- app_assoc. }
  split; [done|]. split.
  - destruct (End_flushed r Hfl) as (-> & _). unfold chunked. rewrite Hh.
    by rewrite app_nil_r.
  - rewrite Hout, !values_set_app, values_set_frames. simpl.
    by rewrite app_nil_r.
Qed.

(** X12. [End] may be called again: on a flushed response that does not
    record [Transfer-Encoding: chunked] a further [End] changes nothing; on
    one that does, every further [End] writes the terminating chunk once
    more. *)
Theorem End_again (r : Response) :
  writer (End (End r))
  = writer (End r) ++ (if chunked r then [terminator] else [])
  ∧ (chunked r = false → End (End r) = End r)
  ∧ (chunked r = true →
       writer (End (End (End r)))
       = writer (End r) ++ [terminator; terminator]).
Proof.
  assert (Hfl : headerWritten (End r) = true).
  { unfold End. destruct (String.eqb _ "chunked"); simpl;
      apply writeHeaders_flag. }
  assert (Hh : headers (End r) = headers r).
  { unfold End. destruct (String.eqb _ "chunked"); simpl;
      apply writeHeaders_headers. }
  assert (Hch : chunked (End r) = chunked r) by (unfold chunked; by rewrite Hh).
  destruct (End_flushed (End r) Hfl) as (Hwr & Hfl2 & Hh2).
  split; [by rewrite Hwr, Hch|]. split.
  - intros Hno. unfold End at 1. rewrite writeHeaders_flushed by done.
    fold (chunked (End r)). by rewrite Hch, Hno.
  - intros Hyes. destruct (End_flushed (End (End r)) Hfl2) as (Hwr3 & _).
    rewrite Hwr3, Hwr. unfold chunked at 2. rewrite Hh2. fold (chunked (End r)).
    rewrite Hch, Hyes. by rewrite <- app_assoc.
Qed.

Lemma run_ops_snoc (r : Response) (ops : list resp_op) (op : resp_op) :
  run_ops r (ops ++ [op]) = apply_op (run_ops r ops) op.
Proof. unfold run_ops. by rewrite foldl_app. Qed.

(** Calls of [Header] and [Status] on a response whose headers are not yet
    flushed only record. *)
Lemma run_ops_recording (ops : list resp_op) : ∀ r : Response,
  headerWritten r = false →
  Forall (λ op, is_trigger op = false) ops →
  run_ops r ops
  = {| writer := writer r; headerWritten := false;
       status := status_code (status r) ops;
       headers := header_map (headers r) ops |}.
Proof.
  induction ops as [|op ops IH]; intros r Hw Hall.
  - destruct r; simpl in *. by subst.
  - apply Forall_cons in Hall as [Hop Hall].
    change (run_ops r (op :: ops)) with (run_ops (apply_op r op) ops).
    destruct op as [k v|s| | |]; try done; cbn [apply_op].
    + rewrite IH; [|by unfold Header; rewrite Hw|done].
      unfold Header. by rewrite Hw.
    + by rewrite IH.
Qed.

(** X13. On a new response any calls of [Header] and [Status] write
    nothing; the flush that [End] then makes sets every recorded header
    once, with the value of the last [Header] call for its name, in some
    order, and writes the status of the last [Status] call, or 200 when
    there was none. *)
Theorem End_flushes_what_was_recorded (w : ResponseWriter)
    (ops : list resp_op) :
  Forall (λ op, is_trigger op = false) ops →
  let r := run_ops (NewResponse w) ops in
  writer r = w
  ∧ headerWritten r = false
  ∧ headers r = header_map ∅ ops
  ∧ status r = status_code 200 ops
  ∧ ∃ sets,
      writer (End r)
      = w ++ map (λ kv, HeaderSet kv.1 kv.2) sets
          ++ [WriteHeader (status_code 200 ops)]
          ++ (if chunked r then [terminator] else [])
      ∧ sets ≡ₚ map_to_list (header_map ∅ ops).
Proof.
  intros Hall r.
  assert (Hr : r = {| writer := w; headerWritten := false;
                      status := status_code 200 ops;
                      headers := header_map ∅ ops |}).
  { unfold r. by rewrite run_ops_recording. }
  rewrite Hr. cbn [writer headerWritten headers status].
  split; [done|]. split; [done|]. split; [done|]. split; [done|].
  exists (range_headers (header_map ∅ ops)). split; [|apply range_headers_perm].
  rewrite End_writer. unfold flush_calls, chunked; simpl.
  by rewrite <- !app_assoc.
Qed.

Lemma ParseInt_not_literal_value (s : string) :
  is_integer_literal s = false →
  (strconv.ParseInt s).1 = 0%Z ∨ (strconv.ParseInt s).1 = (2 ^ 63 - 1)%Z
  ∨ (strconv.ParseInt s).1 = (- 2 ^ 63)%Z.
Proof.
  intros Hl. destruct s as [|c s]; [by left|].
  unfold strconv.ParseInt. unfold is_integer_literal in Hl.
  set (digits := if strconv.is_sign c then s else String c s) in *.
  destruct digits as [|d ds] eqn:Hdig; [by left|].
  unfold strconv.ParseUint.
  destruct (uint_loop_not_digits (String d ds) 0%Z Hl) as (v & e & Hu).
  rewrite Hu. destruct e; [by left|].
  apply uint_loop_range in Hu as ->.
  destruct (Ascii.eqb c "-"); simpl; auto.
Qed.

(** X23. [Status] takes a string and does not report a string it cannot
    read: for a string that is no integer literal it records the status 0
    when the string is shorter than 19 bytes, and 0 or a bound of the 64-bit
    range otherwise, in every case a number that is no status code (none is
    between 100 and 999); writer, flag and headers are left as they are. *)
Theorem Status_of_invalid_string (r : Response) (s : string) :
  is_integer_literal s = false →
  (status (Status r s) = 0%Z ∨ status (Status r s) = (2 ^ 63 - 1)%Z
   ∨ status (Status r s) = (- 2 ^ 63)%Z)
  ∧ (String.length s < 19 → status (Status r s) = 0%Z)
  ∧ ¬ (100 ≤ status (Status r s) ≤ 999)%Z
  ∧ writer (Status r s) = writer r
  ∧ headerWritten (Status r s) = headerWritten r
  ∧ headers (Status r s) = headers r.
Proof.
  intros Hl.
  assert (Hshort : String.length s < 19 → (strconv.Atoi s).1 = 0%Z).
  { intros Hlen. unfold strconv.Atoi.
    destruct (0 <? String.length s) eqn:Hpos.
    - apply Nat.ltb_lt in Hlen. rewrite Hlen. cbn [andb].
      destruct s as [|c s]; [done|]. unfold is_integer_literal in Hl.
      destruct (if strconv.is_sign c then s else String c s) as [|d ds]; [done|].
      by rewrite fast_loop_not_digits.
    - cbn [andb]. apply Nat.ltb_ge in Hpos. by destruct s; [|simpl in Hpos; lia]. }
  assert (Hval : status (Status r s) = 0%Z
                 ∨ status (Status r s) = (2 ^ 63 - 1)%Z
                 ∨ status (Status r s) = (- 2 ^ 63)%Z).
  { cbn [Status status]. unfold strconv.Atoi.
    destruct (_ && _) eqn:Hfast; [|by apply ParseInt_not_literal_value].
    left. pose proof (andb_prop _ _ Hfast) as [_ Hlen%Nat.ltb_lt].
    specialize (Hshort Hlen). unfold strconv.Atoi in Hshort.
    by rewrite Hfast in Hshort. }
  split; [done|]. split; [exact Hshort|]. split; [|done].
  destruct Hval as [Hv|[Hv|Hv]]; rewrite Hv; lia.
Qed.

End ResponseMore.

Lemma Status_of_invalid_string_witness :
  status (Status (NewResponse []) "abc") = 0%Z.
Proof.
  exact (proj1 (proj2 (Status_of_invalid_string (NewResponse []) "abc"
                         eq_refl)) ltac:(simpl; lia)).
Defined.

Lemma End_flushes_what_was_recorded_witness :
  let H := map_to_list_order in
  writer (run_ops (NewResponse [])
            [OpHeader "X-A" "1"; OpStatus "404"; OpHeader "X-A" "2";
             OpStatus "503"])
  = [].
Proof.
  intros H.
  refine (proj1 (@End_flushes_what_was_recorded H []
            [OpHeader "X-A" "1"; OpStatus "404"; OpHeader "X-A" "2";
             OpStatus "503"] _)).
  repeat constructor.
Defined.

(** ** The user repository *)

Lemma GetByID_loop_spec (us : list User) (id : Z) :
  match GetByID_loop us id with
  | (u, true) =>
      ∃ k, us !! k = Some u ∧ ID u = id
           ∧ ∀ j u', j < k → us !! j = Some u' → ID u' ≠ id
  | (u, false) => u = zero_user ∧ ∀ u', u' ∈ us → ID u' ≠ id
  end.
Proof.
  induction us as [|u0 us IH]; simpl.
  - split; [done|]. intros u' Hin. by apply elem_of_nil in Hin.
  - destruct (Z.eqb_spec (ID u0) id) as [Heq|Hne].
    + exists 0. split; [done|]. split; [done|]. lia.
    + destruct (GetByID_loop us id) as [u [|]].
      * destruct IH as (k & Hk & Hid & Hbefore). exists (S k).
        split; [done|]. split; [done|].
        intros [|j] u' Hj Hu'; [by injection Hu' as <-|].
        apply (Hbefore j); [lia|done].
      * destruct IH as [-> Hall]. split; [done|].
        intros u' Hin. apply elem_of_cons in Hin as [->|Hin]; auto.
Qed.

(** X14. [GetByID] answers with the first user of the list that carries the
    id, and with the zero user and false exactly when no user carries it. *)
Theorem GetByID_first_with_id (ur : UserRepository) (id : Z) :
  (∀ u, GetByID ur id = (u, true) →
        ∃ k, users ur !! k = Some u ∧ ID u = id
             ∧ ∀ j u', j < k → users ur !! j = Some u' → ID u' ≠ id)
  ∧ ((GetByID ur id).2 = false ↔ ∀ u', u' ∈ users ur → ID u' ≠ id)
  ∧ ((GetByID ur id).2 = false → (GetByID ur id).1 = zero_user).
Proof.
  unfold GetByID. pose proof (GetByID_loop_spec (users ur) id) as Hs.
  destruct (GetByID_loop (users ur) id) as [u [|]]; simpl.
  - destruct Hs as (k & Hk & Hid & Hbefore). split; [|split].
    + intros u' [= <-]. by exists k.
    + split; [done|]. intros Hall.
      apply list_elem_of_lookup_2 in Hk. by destruct (Hall u Hk).
    + done.
  - destruct Hs as [-> Hall]. split; [done|]. split; [done|]. done.
Qed.

(** With ids counting up from [k + 1], the user with id [id] sits at index
    [id - k - 1]. *)
Lemma GetByID_loop_ids_from (us : list User) : ∀ (k : nat) (id : Z),
  ids_from k us →
  GetByID_loop us id
  = if decide (Z.of_nat k + 1 ≤ id ≤ Z.of_nat (k + length us))%Z
    then (default zero_user (us !! Z.to_nat (id - Z.of_nat k - 1)), true)
    else (zero_user, false).
Proof.
  induction us as [|u us IH]; intros k id Hids.
  - simpl. rewrite decide_False by lia. done.
  - assert (Hu : ID u = (Z.of_nat k + 1)%Z).
    { rewrite (Hids 0 u eq_refl). lia. }
    assert (Hrest : ids_from (S k) us).
    { intros i x Hi. rewrite (Hids (S i) x Hi). lia. }
    cbn [GetByID_loop]. rewrite Hu.
    destruct (Z.eqb_spec (Z.of_nat k + 1) id) as [<-|Hne].
    + rewrite decide_True by (simpl length; lia).
      replace (Z.to_nat (Z.of_nat k + 1 - Z.of_nat k - 1)) with 0 by lia. done.
    + rewrite (IH (S k) id Hrest). simpl length.
      destruct (decide (Z.of_nat (S k) + 1 ≤ id ≤ Z.of_nat (S k + length us))%Z)
        as [Hin|Hout].
      * rewrite decide_True by lia.
        replace (Z.to_nat (id - Z.of_nat k - 1))
          with (S (Z.to_nat (id - Z.of_nat (S k) - 1))) by lia.
        done.
      * rewrite decide_False by lia. done.
Qed.

(** X15. In a repository built from the seed by [Add] calls the user with
    id [k] is the [k]-th of the list: [GetByID] finds every id from 1 to the
    number of users, and finds no other id. *)
Theorem GetByID_after_adds (added : list User) (id : Z) :
  let repo := add_all NewUserRepository added in
  let n := Z.of_nat (length (users repo)) in
  ((1 ≤ id ≤ n)%Z →
     ∃ u, users repo !! Z.to_nat (id - 1) = Some u
          ∧ ID u = id
          ∧ GetByID repo id = (u, true))
  ∧ (¬ (1 ≤ id ≤ n)%Z → GetByID repo id = (zero_user, false)).
Proof.
  intros repo n. unfold GetByID.
  pose proof (GetByID_loop_ids_from (users repo) 0 id (add_all_ids added)) as Hg.
  rewrite Hg. clear Hg.
  change (Z.of_nat (0 + length (users repo))) with n. change (Z.of_nat 0) with 0%Z.
  split.
  - intros Hin. rewrite decide_True by lia.
    replace (id - 0 - 1)%Z with (id - 1)%Z by lia.
    destruct (lookup_lt_is_Some_2 (users repo) (Z.to_nat (id - 1))) as [u Hu];
      [unfold n in Hin; lia|].
    exists u. rewrite Hu. split; [done|]. split; [|done].
    rewrite (add_all_ids added _ u Hu). lia.
  - intros Hout. by rewrite decide_False by lia.
Qed.

Lemma add_all_length (ur : UserRepository) (added : list User) :
  length (users (add_all ur added)) = length (users ur) + length added.
Proof.
  induction added as [|u added IH] using rev_ind; [simpl; lia|].
  rewrite add_all_snoc. destruct (Add_users (add_all ur added) u) as (-> & _).
  rewrite !length_app, IH. simpl. lia.
Qed.

(** X16. A sequence of [Add] calls appends the users in the order of the
    calls, keeps name, phone and age of each, and numbers them on from the
    length of the list, whatever id the caller had put in. *)
Theorem add_all_appends_in_order (ur : UserRepository) (added : list User) :
  users (add_all ur added)
  = users ur
    ++ imap (λ i u, with_ID u (Z.of_nat (length (users ur) + i) + 1)) added.
Proof.
  induction added as [|u added IH] using rev_ind.
  - simpl. by rewrite app_nil_r.
  - rewrite add_all_snoc. destruct (Add_users (add_all ur added) u) as (-> & _).
    rewrite IH, imap_app, <- app_assoc. f_equal. f_equal. simpl.
    unfold Add, with_ID; simpl. rewrite IH, length_app, length_imap.
    do 3 f_equal. lia.
Qed.

(** X17. What [Add] has stored can be read back, and nothing that could be
    read before is lost: in a repository built from the seed by [Add] calls,
    [GetByID] at the id [Add] returns gives the user [Add] returns, and every
    id found before the call is found after it with the same user. *)
Theorem Add_then_GetByID (added : list User) (user : User) (id : Z) :
  let repo := add_all NewUserRepository added in
  GetByID (Add repo user).1 (ID (Add repo user).2) = ((Add repo user).2, true)
  ∧ ((GetByID repo id).2 = true →
       GetByID (Add repo user).1 id = GetByID repo id).
Proof.
  intros repo.
  assert (Hids : ids_from 0 (users (Add repo user).1)).
  { unfold repo. rewrite <- add_all_snoc. apply add_all_ids. }
  assert (Hold : ids_from 0 (users repo)) by apply add_all_ids.
  unfold GetByID.
  rewrite !(GetByID_loop_ids_from _ 0 _ Hids), (GetByID_loop_ids_from _ 0 _ Hold).
  destruct (Add_users repo user) as (Hus & Hid & _).
  rewrite Hus, Hid, length_app. simpl length. split.
  - rewrite decide_True by lia.
    replace (Z.to_nat (Z.of_nat (length (users repo)) + 1 - Z.of_nat 0 - 1))
      with (length (users repo) + 0) by lia.
    by rewrite lookup_app_r, Nat.add_0_r, Nat.sub_diag by lia.
  - destruct (decide (Z.of_nat 0 + 1 ≤ id ≤ Z.of_nat (0 + length (users repo)))%Z)
      as [Hin|Hout]; [|done].
    intros _. rewrite decide_True by lia.
    by rewrite lookup_app_l by lia.
Qed.

(** ** The demo program, every request *)

Section MainMore.

Context `{MapOrder} `{JsonDecoder User}.

Lemma app_routes (NumCPU : nat) (method : string) :
  routes (app NumCPU) !! method
  = if decide (method = "POST") then Some post_routes
    else if decide (method = "GET") then Some get_routes
    else None.
Proof.
  unfold app, Post, Get, http.MethodPost, http.MethodGet.
  destruct (decide (method = "POST")) as [->|Hp]; [done|].
  rewrite (routes_addRoute_ne _ "POST") by done.
  destruct (decide (method = "GET")) as [->|Hg]; [done|].
  by rewrite !(routes_addRoute_ne _ "GET") by done.
Qed.

Lemma Status_Json_response (w : ResponseWriter) (code : string) (body : goval) :
  writer (Json (Status (NewResponse w) code) body)
  = w ++ json_response (strconv.Atoi code).1 body.
Proof. apply Status_Json_fresh. Qed.

(** What the three handlers do. *)
Lemma get_all_users_answer req (w : ResponseWriter) repo :
  ∃ res, get_all_users req (NewResponse w) repo = (repo, res)
         ∧ writer res = w ++ json_response 200 (VSlice (map User_val (users repo))).
Proof.
  unfold get_all_users, GetAll. eexists. split; [done|].
  by rewrite Status_Json_response.
Qed.

Lemma get_user_answer req (w : ResponseWriter) repo :
  ∃ res, get_user req (NewResponse w) repo = (repo, res)
         ∧ writer res
           = w ++ match strconv.Atoi (PathParam req "userId") with
                  | (_, Some _) => json_response 400 (error_body "Invalid UserId")
                  | (userId, None) =>
                      match GetByID repo userId with
                      | (_, false) =>
                          json_response 404 (error_body "User not found")
                      | (user, true) => json_response 200 (User_val user)
                      end
                  end.
Proof.
  unfold get_user. destruct (strconv.Atoi _) as [userId [e|]].
  - eexists. split; [done|]. by rewrite Status_Json_response.
  - destruct (GetByID repo userId) as [user [|]]; eexists;
      (split; [done|]); by rewrite Status_Json_response.
Qed.

Lemma add_student_answer req (w : ResponseWriter) repo :
  match add_student_error (Body req), Body req with
  | Some msg, _ =>
      ∃ res, add_student req (NewResponse w) repo = (repo, res)
             ∧ writer res = w ++ json_response 400 (error_body msg)
  | None, Some user =>
      ∃ res, add_student req (NewResponse w) repo = ((Add repo user).1, res)
             ∧ writer res
               = w ++ json_response 201
                        (VMap [("message", VString "Student added successfully");
                               ("user", User_val (Add repo user).2)])
  | None, None => False
  end.
Proof.
  unfold add_student, add_student_error.
  destruct (Body req) as [user|].
  - destruct (String.eqb (Name user) "");
      [eexists; split; [done|]; by rewrite Status_Json_response|].
    destruct (String.eqb (Phone user) "");
      [eexists; split; [done|]; by rewrite Status_Json_response|].
    destruct (Age user <=? 0)%Z;
      [eexists; split; [done|]; by rewrite Status_Json_response|].
    eexists. split; [done|]. by rewrite Status_Json_response.
  - eexists; split; [done|]; by rewrite Status_Json_response.
Qed.

(** A request to the demo server is answered with [http.NotFound] or is
    handed to one of the three handlers. *)
Lemma app_dispatch (NumCPU : nat) (w : ResponseWriter) (r : http.Request)
    (repo : UserRepository) :
  handleRequest (app NumCPU) w r repo = Some (repo, w ++ [HttpNotFound])
  ∨ ∃ h ps,
      handleRequest (app NumCPU) w r repo
      = Some (let '(st', res') := h {| httpRequest := r; params := ps |}
                                    (NewResponse w) repo in
              (st', writer res'))
      ∧ ((http.Method r = "GET" ∧ (h = get_all_users ∨ h = get_user))
         ∨ (http.Method r = "POST" ∧ h = add_student)).
Proof.
  unfold handleRequest. rewrite app_routes.
  set (pp := path_parts (http.URL_Path r)).
  destruct (decide (http.Method r = "POST")) as [Hp|Hp].
  - cbn [post_routes route_loop path]. cbv beta iota delta [handler].
    pose proof (match_route_no_panic "/add-student" pp) as Hnp.
    destruct (match_route "/add-student" pp) as [[ps| |]|]; try done;
      try by left.
    right. exists add_student, ps.
    split; [by destruct (add_student _ _ repo)|]. by right.
  - destruct (decide (http.Method r = "GET")) as [Hg|Hg]; [|by left].
    cbn [get_routes route_loop path]. cbv beta iota delta [handler].
    pose proof (match_route_no_panic "/get-all-users" pp) as Hnp1.
    pose proof (match_route_no_panic "/get-user/:userId" pp) as Hnp2.
    destruct (match_route "/get-all-users" pp) as [[ps| |]|]; try done;
      try (right; exists get_all_users, ps;
           split; [by destruct (get_all_users _ _ repo)|]; left; by auto);
      (destruct (match_route "/get-user/:userId" pp) as [[ps2| |]|]; try done;
       try (by left);
       right; exists get_user, ps2;
       split; [by destruct (get_user _ _ repo)|]; left; by auto).
Qed.

(** X18. Every request to the demo server gets exactly one answer, and only
    a created student changes the repository: the answer is [http.NotFound],
    or one JSON response with status 200, 400 or 404, the repository being
    left as it is in all these cases, or the JSON response with status 201
    of a POST whose decoded user [Add] has stored. *)
Theorem every_request_answered (NumCPU : nat) (w : ResponseWriter)
    (r : http.Request) (repo : UserRepository) :
  ∃ repo' out,
    handleRequest (app NumCPU) w r repo = Some (repo', w ++ out)
    ∧ ((out = [HttpNotFound] ∧ repo' = repo)
       ∨ (∃ code v, (code = 200 ∨ code = 400 ∨ code = 404)%Z
                    ∧ out = json_response code v ∧ repo' = repo)
       ∨ (∃ v user, out = json_response 201 v
                    ∧ repo' = (Add repo user).1
                    ∧ http.Method r = "POST"
                    ∧ json_decode (http.Body r) = Some user)).
Proof.
  destruct (app_dispatch NumCPU w r repo) as [->|(h & ps & -> & Hh)].
  { exists repo, [HttpNotFound]. split; [done|]. by left. }
  set (req := {| httpRequest := r; params := ps |}).
  destruct Hh as [[Hm [->| ->]]|[Hm ->]].
  - destruct (get_all_users_answer req w repo) as (res & -> & ->).
    eexists _, _. split; [done|]. right; left. eexists _, _. eauto.
  - destruct (get_user_answer req w repo) as (res & -> & ->).
    eexists _, _. split; [done|]. right; left.
    destruct (strconv.Atoi _) as [userId [e|]]; [eexists _, _; eauto|].
    destruct (GetByID repo userId) as [user [|]]; eexists _, _; eauto.
  - pose proof (add_student_answer req w repo) as Ha.
    destruct (add_student_error (Body req)) as [msg|] eqn:Herr.
    + destruct Ha as (res & -> & ->). eexists _, _. split; [done|].
      right; left. eexists _, _. eauto.
    + destruct (Body req) as [user|] eqn:Hb; [|done].
      destruct Ha as (res & -> & ->). eexists _, _. split; [done|].
      right; right. eexists _, user. eauto.
Qed.

(** One request leaves the repository as it is or adds one user to it, the
    latter only for a POST. *)
Lemma serve_step (NumCPU : nat) (repo : UserRepository) (r : http.Request) :
  serve NumCPU repo r = repo
  ∨ (is_post r = true ∧ ∃ user, serve NumCPU repo r = (Add repo user).1).
Proof.
  unfold serve.
  destruct (app_dispatch NumCPU [] r repo) as [->|(h & ps & -> & Hh)];
    [by left|].
  set (req := {| httpRequest := r; params := ps |}).
  destruct Hh as [[Hm [->| ->]]|[Hm ->]].
  - destruct (get_all_users_answer req [] repo) as (res & -> & _). by left.
  - destruct (get_user_answer req [] repo) as (res & -> & _). by left.
  - pose proof (add_student_answer req [] repo) as Ha.
    destruct (add_student_error (Body req)) as [msg|].
    + destruct Ha as (res & -> & _). by left.
    + destruct (Body req) as [user|]; [|done].
      destruct Ha as (res & -> & _). right.
      split; [unfold is_post; by rewrite Hm|]. by exists user.
Qed.

(** X19. Whatever requests the demo server handles one after the other
    from its seed repository, the repository it arrives at is one that a
    sequence of [Add] calls builds from the seed, with at most one call for
    each POST request; so the ids of its users are 1, 2, 3 and so on in the
    order of the list, each id once. *)
Theorem requests_keep_ids_consecutive (NumCPU : nat)
    (reqs : list http.Request) :
  let repo := serve_all NumCPU NewUserRepository reqs in
  (∃ added, repo = add_all NewUserRepository added
            ∧ length added ≤ length (List.filter is_post reqs))
  ∧ ids_from 0 (users repo)
  ∧ NoDup (map ID (users repo))
  ∧ 3 ≤ length (users repo).
Proof.
  intros repo.
  assert (Hadd : ∃ added, repo = add_all NewUserRepository added
                   ∧ length added ≤ length (List.filter is_post reqs)).
  { unfold repo. induction reqs as [|r reqs IH] using rev_ind.
    - exists []. split; [done|]. simpl. lia.
    - destruct IH as (added & Heq & Hlen). unfold serve_all in *.
      rewrite foldl_app; simpl. rewrite Heq.
      rewrite List.filter_app, length_app.
      destruct (serve_step NumCPU (add_all NewUserRepository added) r)
        as [->|(Hpost & user & ->)].
      + exists added. split; [done|]. lia.
      + exists (added ++ [user]). rewrite add_all_snoc. split; [done|].
        rewrite length_app. simpl. rewrite Hpost. simpl. lia. }
  split; [done|]. destruct Hadd as (added & -> & _).
  pose proof (add_all_ids added) as Hids.
  split; [done|]. split.
  - apply NoDup_alt. intros i j x Hi Hj.
    apply list_lookup_fmap_Some in Hi as (u & Hx & Hu).
    apply list_lookup_fmap_Some in Hj as (u' & Hx' & Hu').
    apply Hids in Hu, Hu'. lia.
  - rewrite add_all_length. simpl. lia.
Qed.

Lemma get_user_route (seg : string) :
  route_loop get_routes ["get-user"; seg]
  = Found {| path := "/get-user/:userId"; handler := get_user |}
          {[ "userId" := seg ]}.
Proof. reflexivity. Qed.

(** X20. In a repository built from the seed by [Add] calls, a GET request
    for [/get-user/seg] whose segment [Atoi] reads as [id] is answered with
    status 200 and the [id]-th user of the list when [id] is between 1 and
    the number of users, and with status 404 and the body
    [{error: User not found}] otherwise; the repository is left as it is. *)
Theorem get_user_by_id (NumCPU : nat) (added : list User)
    (w : ResponseWriter) (r : http.Request) (seg : string) (id : Z) :
  let repo := add_all NewUserRepository added in
  http.Method r = "GET" →
  path_parts (http.URL_Path r) = ["get-user"; seg] →
  strconv.Atoi seg = (id, None) →
  ((1 ≤ id ≤ Z.of_nat (length (users repo)))%Z →
     ∃ u, users repo !! Z.to_nat (id - 1) = Some u
          ∧ ID u = id
          ∧ handleRequest (app NumCPU) w r repo
            = Some (repo, w ++ json_response 200 (User_val u)))
  ∧ (¬ (1 ≤ id ≤ Z.of_nat (length (users repo)))%Z →
       handleRequest (app NumCPU) w r repo
       = Some (repo, w ++ json_response 404 (error_body "User not found"))).
Proof.
  intros repo Hm Hp Hseg.
  assert (Hreq : handleRequest (app NumCPU) w r repo
                 = Some (repo, w ++ match GetByID repo id with
                                    | (_, false) =>
                                        json_response 404 (error_body "User not found")
                                    | (user, true) =>
                                        json_response 200 (User_val user)
                                    end)).
  { unfold handleRequest. rewrite Hm, app_routes_GET, Hp, get_user_route.
    cbv beta iota delta [handler].
    destruct (get_user_answer {| httpRequest := r; params := {[ "userId" := seg ]} |}
                w repo) as (res & -> & ->).
    unfold PathParam; cbn [params]. rewrite lookup_singleton_eq; cbn [default].
    unfold Datatypes.id. by rewrite Hseg. }
  rewrite Hreq. clear Hreq. unfold GetByID.
  pose proof (GetByID_loop_ids_from (users repo) 0 id (add_all_ids added)) as Hg.
  rewrite Hg. clear Hg.
  change (Z.of_nat (0 + length (users repo)))
    with (Z.of_nat (length (users repo))).
  change (Z.of_nat 0) with 0%Z. split.
  - intros Hin. rewrite decide_True by lia.
    replace (id - 0 - 1)%Z with (id - 1)%Z by lia.
    destruct (lookup_lt_is_Some_2 (users repo) (Z.to_nat (id - 1))) as [u Hu];
      [lia|].
    exists u. rewrite Hu. split; [done|]. split; [|done].
    rewrite (add_all_ids added _ u Hu). lia.
  - intros Hout. by rewrite decide_False by lia.
Qed.

(** X21. A POST request for [/add-student] is answered with status 201
    exactly when its body decodes to a user with a name, a phone and an age
    above zero: the user is then stored at the end of the list under the id
    that follows the length of the list, whatever id the body carried. In
    every other case the answer has status 400 with the message of the first
    check that fails (body, name, phone, age, in this order) and the
    repository is left as it is. *)
Theorem add_student_created_iff_valid (NumCPU : nat) (w : ResponseWriter)
    (r : http.Request) (repo : UserRepository) :
  http.Method r = "POST" →
  path_parts (http.URL_Path r) = ["add-student"] →
  (∀ user, json_decode (http.Body r) = Some user →
           Name user ≠ "" → Phone user ≠ "" → (0 < Age user)%Z →
           let stored := with_ID user (Z.of_nat (length (users repo)) + 1) in
           handleRequest (app NumCPU) w r repo
           = Some ({| users := users repo ++ [stored] |},
                   w ++ json_response 201
                          (VMap [("message", VString "Student added successfully");
                                 ("user", User_val stored)])))
  ∧ ((∀ user, json_decode (http.Body r) = Some user →
              Name user = "" ∨ Phone user = "" ∨ (Age user ≤ 0)%Z) →
       ∃ msg, add_student_error (json_decode (http.Body r)) = Some msg
              ∧ handleRequest (app NumCPU) w r repo
                = Some (repo, w ++ json_response 400 (error_body msg))).
Proof.
  intros Hm Hp.
  set (req := {| httpRequest := r; params := ∅ |}).
  assert (Hreq : handleRequest (app NumCPU) w r repo
                 = Some (let '(st', res') := add_student req (NewResponse w) repo in
                         (st', writer res'))).
  { unfold handleRequest. rewrite Hm, app_routes_POST, Hp.
    change (route_loop post_routes ["add-student"])
      with (Found {| path := "/add-student"; handler := add_student |} ∅).
    cbv beta iota delta [handler]. by destruct (add_student _ _ repo). }
  rewrite Hreq. clear Hreq.
  pose proof (add_student_answer req w repo) as Ha.
  change (Body req) with (json_decode (http.Body r)) in Ha.
  split.
  - intros user Hdec Hn Hph Hage stored.
    rewrite Hdec in Ha. unfold add_student_error in Ha.
    apply String.eqb_neq in Hn, Hph. rewrite Hn, Hph in Ha.
    destruct (Z.leb_spec (Age user) 0) as [?|_]; [lia|].
    by destruct Ha as (res & -> & ->).
  - intros Hbad.
    destruct (add_student_error (json_decode (http.Body r))) as [msg|] eqn:Herr.
    + exists msg. split; [done|]. by destruct Ha as (res & -> & ->).
    + exfalso. unfold add_student_error in Herr.
      destruct (json_decode (http.Body r)) as [user|]; [|done].
      destruct (String.eqb_spec (Name user) ""); [done|].
      destruct (String.eqb_spec (Phone user) ""); [done|].
      destruct (Z.leb_spec (Age user) 0); [done|].
      destruct (Hbad user eq_refl) as [?|[?|?]]; [done..|lia].
Qed.

End MainMore.

Lemma get_user_by_id_witness :
  let H := map_to_list_order in
  let D := scenario_decoder in
  handleRequest (app 1) [] (request "GET" "/get-user/1" "") NewUserRepository
  = Some (NewUserRepository,
          [] ++ json_response 200
                  (User_val {| ID := 1; Name := "Pavan Illa";
                               Phone := "9381122977"; Age := 24 |})).
Proof.
  intros H D.
  destruct (proj1 (@get_user_by_id H D 1 [] []
                     (request "GET" "/get-user/1" "") "1" 1
                     eq_refl eq_refl eq_refl) ltac:(simpl; lia))
    as (u & Hu & _ & Hreq).
  injection Hu as <-. exact Hreq.
Defined.

Lemma add_student_created_iff_valid_witness :
  let H := map_to_list_order in
  let D := scenario_decoder in
  ∃ msg, handleRequest (app 1) [] (request "POST" "/add-student" "{}")
                       NewUserRepository
         = Some (NewUserRepository, [] ++ json_response 400 (error_body msg)).
Proof.
  intros H D.
  destruct (proj2 (@add_student_created_iff_valid H D 1 []
                     (request "POST" "/add-student" "{}") NewUserRepository
                     eq_refl eq_refl)) as (msg & _ & Hreq).
  - intros user Hdec. discriminate Hdec.
  - by exists msg.
Defined.
